(** * newsboat [src/utils.cpp]: the line tokenizers

    A shallow embedding of [utils::append_escapes], [utils::tokenize_quoted],
    [utils::extract_token_quoted], [utils::tokenize], [utils::tokenize_spaced]
    and [utils::tokenize_nl], with the properties their specification states.

    Conventions of the embedding (LP64 target):
    - [std::string] is a list of characters; its length is below [npos];
    - [std::string::size_type] is a 64 bit unsigned integer, modelled in [Z]
      with its wrap-around written out; [npos] is its largest value;
    - [unsigned int] is a 32 bit unsigned integer;
    - [substr] throws [std::out_of_range] when the start position is past the
      end: this is the [Throw] outcome;
    - [while] and [for] loops are iterated with fuel; a loop that has not left
      when the fuel is used up is the [OutOfFuel] outcome. *)

From Stdlib Require Import ZArith List Bool Ascii String Lia.
Import ListNotations.
Local Open Scope Z_scope.

(** ** Outcomes of a call *)

Inductive outcome (A : Type) : Type :=
| Ok (a : A)
| Throw
| OutOfFuel.

Arguments Ok {A} a.
Arguments Throw {A}.
Arguments OutOfFuel {A}.

Definition bind {A B : Type} (m : outcome A) (k : A -> outcome B) : outcome B :=
  match m with
  | Ok a => k a
  | Throw => Throw
  | OutOfFuel => OutOfFuel
  end.

Notation "x <- m ;; k" := (bind m (fun x => k))
  (at level 61, m at next level, right associativity).

(** ** The parts of [std::string] the tokenizers use *)

Module cxx.

Abbreviation cstring := (list ascii).

(** String literals of the source. *)
Definition lit (s : String.string) : cstring := list_ascii_of_string s.

Definition size_max : Z := 2 ^ 64.
Definition npos : Z := size_max - 1.
Definition uint_max : Z := 2 ^ 32.

Definition size (s : cstring) : Z := Z.of_nat (List.length s).

(** Unsigned subtraction and increment on [size_type], and the increment of
    an [unsigned int]. *)
Definition size_sub (a b : Z) : Z := (a - b) mod size_max.
Definition size_add (a b : Z) : Z := (a + b) mod size_max.
Definition uint_succ (i : Z) : Z := (i + 1) mod uint_max.

(** Membership of a character in a delimiter string. *)
Definition is_delim (delimiters : cstring) (c : ascii) : bool :=
  existsb (Ascii.eqb c) delimiters.

Definition not_delim (delimiters : cstring) (c : ascii) : bool :=
  negb (is_delim delimiters c).

(** Index of the first character of [s] that satisfies [p], counted from
    [idx]; [npos] when there is none. *)
Fixpoint find_if_from (p : ascii -> bool) (s : cstring) (idx : Z) : Z :=
  match s with
  | [] => npos
  | c :: s' => if p c then idx else find_if_from p s' (idx + 1)
  end.

(** [s.find_first_of(delimiters, pos)] *)
Definition find_first_of (s delimiters : cstring) (pos : Z) : Z :=
  if size s <=? pos then npos
  else find_if_from (is_delim delimiters) (skipn (Z.to_nat pos) s) pos.

(** [s.find_first_not_of(delimiters, pos)] *)
Definition find_first_not_of (s delimiters : cstring) (pos : Z) : Z :=
  if size s <=? pos then npos
  else find_if_from (not_delim delimiters) (skipn (Z.to_nat pos) s) pos.

(** [s.substr(pos, n)]: throws when [pos > size()]; the length of the result
    is the smaller of [n] and [size() - pos]. *)
Definition substr (s : cstring) (pos n : Z) : outcome cstring :=
  if size s <? pos then Throw
  else
    let rlen := Z.min n (size s - pos) in
    Ok (firstn (Z.to_nat rlen) (skipn (Z.to_nat pos) s)).

(** [s[pos]]; at [pos = size()] the standard gives the null character. *)
Definition at_ (s : cstring) (pos : Z) : ascii :=
  nth (Z.to_nat pos) s zero.

End cxx.
Import cxx.

(** ** The functions of [utils.cpp] *)

Module utils.

Definition LF : ascii := ascii_of_nat 10.
Definition CR : ascii := ascii_of_nat 13.
Definition TAB : ascii := ascii_of_nat 9.
Definition QUOTE : ascii := ascii_of_nat 34.
Definition BACKSLASH : ascii := ascii_of_nat 92.
Definition BACKTICK : ascii := ascii_of_nat 96.
Definition HASH : ascii := "#"%char.

(** [void append_escapes(std::string& str, char c)]: the new value of [str]. *)
Definition append_escapes (str : cstring) (c : ascii) : cstring :=
  if Ascii.eqb c "n" then str ++ [LF]
  else if Ascii.eqb c "r" then str ++ [CR]
  else if Ascii.eqb c "t" then str ++ [TAB]
  else if Ascii.eqb c QUOTE then str ++ [QUOTE]
  else if Ascii.eqb c BACKTICK then str ++ [BACKSLASH; BACKTICK]
  else if Ascii.eqb c BACKSLASH then str ++ [BACKSLASH]
  else str ++ [c].

(** The [while (pos < str.length())] loop of the quoted branch of
    [extract_token_quoted]; it returns the final [pos] and [token]. *)
Fixpoint scan_quoted (fuel : nat) (str : cstring) (pos : Z) (token : cstring)
  : outcome (Z * cstring) :=
  match fuel with
  | O => OutOfFuel
  | S fuel' =>
      if pos <? size str then
        if Ascii.eqb (at_ str pos) QUOTE then
          (* We've reached the end of this quoted token. *)
          Ok (size_add pos 1, token)
        else if Ascii.eqb (at_ str pos) BACKSLASH then
          let pos := size_add pos 1 in
          if pos <? size str then
            scan_quoted fuel' str (size_add pos 1)
              (append_escapes token (at_ str pos))
          else
            scan_quoted fuel' str pos token
        else
          scan_quoted fuel' str (size_add pos 1) (token ++ [at_ str pos])
      else Ok (pos, token)
  end.

(** [extract_token_quoted(std::string& str, std::string delimiters)]: the
    optional token and the new value of [str]. *)
Definition extract_token_quoted (fuel : nat) (str delimiters : cstring)
  : outcome (option cstring * cstring) :=
  let first_non_delimiter := find_first_not_of str delimiters 0 in
  if first_non_delimiter =? npos then Ok (None, [])
  else
    str <- substr str first_non_delimiter npos ;;
    if Ascii.eqb (at_ str 0) HASH then (* stop as soon as we find a comment *)
      Ok (None, [])
    else if Ascii.eqb (at_ str 0) QUOTE then
      r <- scan_quoted fuel str 1 [] ;;
      let '(pos, token) := r in
      str <- substr str pos npos ;;
      Ok (Some token, str)
    else
      let end_of_token := find_first_of str delimiters 0 in
      token <- substr str 0 end_of_token ;;
      if end_of_token =? npos then Ok (Some token, [])
      else
        str <- substr str end_of_token npos ;;
        Ok (Some token, str).

(** The loop of [tokenize_quoted]. *)
Fixpoint tokenize_quoted_loop (fuel_in fuel : nat) (delimiters : cstring)
  (tokens : list cstring) (remaining : cstring) : outcome (list cstring) :=
  match fuel with
  | O => OutOfFuel
  | S fuel' =>
      match remaining with
      | [] => Ok tokens
      | _ :: _ =>
          r <- extract_token_quoted fuel_in remaining delimiters ;;
          let '(token, remaining) := r in
          match token with
          | Some t =>
              tokenize_quoted_loop fuel_in fuel' delimiters (tokens ++ [t])
                remaining
          | None =>
              tokenize_quoted_loop fuel_in fuel' delimiters tokens remaining
          end
      end
  end.

Definition tokenize_quoted (fuel : nat) (str delimiters : cstring)
  : outcome (list cstring) :=
  tokenize_quoted_loop fuel fuel delimiters [] str.

(** The loop of [tokenize]. *)
Fixpoint tokenize_loop (fuel : nat) (str delimiters : cstring)
  (tokens : list cstring) (last_pos pos : Z) : outcome (list cstring) :=
  match fuel with
  | O => OutOfFuel
  | S fuel' =>
      if negb (npos =? pos) || negb (npos =? last_pos) then
        t <- substr str last_pos (size_sub pos last_pos) ;;
        let tokens := tokens ++ [t] in
        let last_pos := find_first_not_of str delimiters pos in
        let pos := find_first_of str delimiters last_pos in
        tokenize_loop fuel' str delimiters tokens last_pos pos
      else Ok tokens
  end.

Definition tokenize (fuel : nat) (str delimiters : cstring)
  : outcome (list cstring) :=
  let last_pos := find_first_not_of str delimiters 0 in
  let pos := find_first_of str delimiters last_pos in
  tokenize_loop fuel str delimiters [] last_pos pos.

(** The loop of [tokenize_spaced]. *)
Fixpoint tokenize_spaced_loop (fuel : nat) (str delimiters : cstring)
  (tokens : list cstring) (last_pos pos : Z) : outcome (list cstring) :=
  match fuel with
  | O => OutOfFuel
  | S fuel' =>
      if negb (npos =? pos) || negb (npos =? last_pos) then
        t <- substr str last_pos (size_sub pos last_pos) ;;
        let tokens := tokens ++ [t] in
        let last_pos := find_first_not_of str delimiters pos in
        tokens <-
          (if pos <? last_pos then
             t <- substr str pos (size_sub last_pos pos) ;;
             Ok (tokens ++ [t])
           else Ok tokens) ;;
        let pos := find_first_of str delimiters last_pos in
        tokenize_spaced_loop fuel' str delimiters tokens last_pos pos
      else Ok tokens
  end.

Definition tokenize_spaced (fuel : nat) (str delimiters : cstring)
  : outcome (list cstring) :=
  let last_pos := find_first_not_of str delimiters 0 in
  let pos := find_first_of str delimiters last_pos in
  tokens <-
    (if negb (last_pos =? 0) then
       t <- substr str 0 last_pos ;;
       Ok [t]
     else Ok []) ;;
  tokenize_spaced_loop fuel str delimiters tokens last_pos pos.

(** [for (i = ...; guard && i < bound; ++i) tokens.push_back("\n")] with
    [unsigned int i] and a [size_type] bound; [guard] stands for the
    conditions in front of [i < bound], which the loop body does not change
    ([true] where the source has none). *)
Fixpoint push_newlines (fuel : nat) (guard : bool) (bound : Z) (i : Z)
  (tokens : list cstring) : outcome (list cstring) :=
  match fuel with
  | O => OutOfFuel
  | S fuel' =>
      if guard && (i <? bound) then
        push_newlines fuel' guard bound (uint_succ i) (tokens ++ [[LF]])
      else Ok tokens
  end.

(** The [while] loop of [tokenize_nl]. *)
Fixpoint tokenize_nl_loop (fuel_in fuel : nat) (str delimiters : cstring)
  (tokens : list cstring) (last_pos pos : Z) : outcome (list cstring) :=
  match fuel with
  | O => OutOfFuel
  | S fuel' =>
      if negb (npos =? pos) || negb (npos =? last_pos) then
        t <- substr str last_pos (size_sub pos last_pos) ;;
        let tokens := tokens ++ [t] in
        let last_pos := find_first_not_of str delimiters pos in
        tokens <-
          push_newlines fuel_in
            (negb (last_pos =? npos) && negb (pos =? npos))
            (size_sub last_pos pos) 0 tokens ;;
        let pos := find_first_of str delimiters last_pos in
        tokenize_nl_loop fuel_in fuel' str delimiters tokens last_pos pos
      else Ok tokens
  end.

Definition tokenize_nl (fuel : nat) (str delimiters : cstring)
  : outcome (list cstring) :=
  let last_pos := find_first_not_of str delimiters 0 in
  let pos := find_first_of str delimiters last_pos in
  tokens <-
    (if negb (last_pos =? npos) then push_newlines fuel true last_pos 0 []
     else push_newlines fuel true (size str) 0 []) ;;
  tokenize_nl_loop fuel fuel str delimiters tokens last_pos pos.

End utils.
Import utils.


(** ** Vocabulary of the specification *)

Module Spec.

(** The longest prefix of [s] whose characters satisfy [p], and what is left
    of [s] behind it. *)
Fixpoint run_while (p : ascii -> bool) (s : cstring) : cstring :=
  match s with
  | [] => []
  | c :: s' => if p c then c :: run_while p s' else []
  end.

Fixpoint skip_while (p : ascii -> bool) (s : cstring) : cstring :=
  match s with
  | [] => []
  | c :: s' => if p c then skip_while p s' else s
  end.

(** The position at which the suffix [rest] starts in [pre ++ rest], as the
    [find_first_*] functions report it: [npos] for the empty suffix. *)
Definition pos_of (pre rest : cstring) : Z :=
  match rest with
  | [] => npos
  | _ :: _ => size pre
  end.

(** [s] is empty or starts with a character that is not a delimiter. *)
Definition at_word (delimiters s : cstring) : Prop :=
  match s with
  | [] => True
  | c :: _ => is_delim delimiters c = false
  end.

(** [s] is empty or starts with a delimiter. *)
Definition at_gap (delimiters s : cstring) : Prop :=
  match s with
  | [] => True
  | c :: _ => is_delim delimiters c = true
  end.

(** Splitting on maximal runs of delimiters: [splits d s toks] holds when
    [toks] are, in order, the maximal non-empty runs of non-delimiter
    characters of [s]. A token is preceded by a run of delimiters and is
    followed by the end of the line or by a delimiter. *)
Inductive splits (delimiters : cstring) : cstring -> list cstring -> Prop :=
| splits_nil (gap : cstring) :
    forallb (is_delim delimiters) gap = true ->
    splits delimiters gap []
| splits_cons (gap tok rest : cstring) (toks : list cstring) :
    forallb (is_delim delimiters) gap = true ->
    tok <> [] ->
    forallb (not_delim delimiters) tok = true ->
    at_gap delimiters rest ->
    splits delimiters rest toks ->
    splits delimiters (gap ++ tok ++ rest) (tok :: toks).

(** Number of tokens that are the one-character string of a line feed. *)
Definition is_newline_token (t : cstring) : bool :=
  match t with
  | [c] => Ascii.eqb c LF
  | _ => false
  end.

Definition count_newline_tokens (toks : list cstring) : nat :=
  List.length (filter is_newline_token toks).

(** Number of delimiter characters of [s]. *)
Definition count_delims (delimiters s : cstring) : nat :=
  List.length (filter (is_delim delimiters) s).

(** Number of delimiter characters of [s] that have a character which is
    not a delimiter somewhere behind them. *)
Fixpoint count_inner_delims (delimiters s : cstring) : nat :=
  match s with
  | [] => O
  | c :: s' =>
      if is_delim delimiters c && existsb (not_delim delimiters) s'
      then S (count_inner_delims delimiters s')
      else count_inner_delims delimiters s'
  end.

(** The token of a quoted string whose text behind the opening quote is
    [body]: escapes resolved, up to the closing quote or the end. *)
Fixpoint unquote (body : cstring) (token : cstring) : cstring :=
  match body with
  | [] => token
  | c :: body' =>
      if Ascii.eqb c QUOTE then token
      else if Ascii.eqb c BACKSLASH then
        match body' with
        | [] => token
        | e :: body'' => unquote body'' (append_escapes token e)
        end
      else unquote body' (token ++ [c])
  end.

(** What is left of [body] behind the closing quote; [None] when the
    closing quote is missing. *)
Fixpoint after_quote (body : cstring) : option cstring :=
  match body with
  | [] => None
  | c :: body' =>
      if Ascii.eqb c QUOTE then Some body'
      else if Ascii.eqb c BACKSLASH then
        match body' with
        | [] => None
        | _ :: body'' => after_quote body''
        end
      else after_quote body'
  end.

(** What is left of the cursor behind a quoted token with text [body]. *)
Definition quoted_rest (body : cstring) : cstring :=
  match after_quote body with
  | Some rest => rest
  | None => []
  end.

(** The result of the extractor on the cursor [str], read off the list. *)
Definition extract_spec (d str : cstring) : option cstring * cstring :=
  match skip_while (is_delim d) str with
  | [] => (None, [])
  | c :: r =>
      if Ascii.eqb c HASH then (None, [])
      else if Ascii.eqb c QUOTE then (Some (unquote r []), quoted_rest r)
      else (Some (run_while (not_delim d) (c :: r)),
            skip_while (not_delim d) (c :: r))
  end.

End Spec.
Import Spec.

(** ** More of [std::string], [std::wstring] and [unsigned int] *)

Module cxx_more.

(** Addition and subtraction of [unsigned int]. *)
Definition uint_add (a b : Z) : Z := (a + b) mod uint_max.
Definition uint_sub (a b : Z) : Z := (a - b) mod uint_max.

(** [s.erase(pos, n)]: throws when [pos > size()]; the number of characters
    removed is the smaller of [n] and [size() - pos]. *)
Definition erase (s : cstring) (pos n : Z) : outcome cstring :=
  if size s <? pos then Throw
  else
    let xlen := Z.min n (size s - pos) in
    Ok (firstn (Z.to_nat pos) s ++ skipn (Z.to_nat (pos + xlen)) s).

(** [pat] is a prefix of [s]. *)
Fixpoint starts_with (pat s : cstring) : bool :=
  match pat, s with
  | [], _ => true
  | _ :: _, [] => false
  | p :: pat', c :: s' => Ascii.eqb p c && starts_with pat' s'
  end.

(** Index of the first occurrence of [pat] in [s], counted from [idx];
    [npos] when there is none. The empty [pat] occurs at once. *)
Fixpoint find_from (pat s : cstring) (idx : Z) : Z :=
  if starts_with pat s then idx
  else
    match s with
    | [] => npos
    | _ :: s' => find_from pat s' (idx + 1)
    end.

(** [s.find(pat, pos)] *)
Definition find (s pat : cstring) (pos : Z) : Z :=
  if size s <? pos then npos
  else find_from pat (skipn (Z.to_nat pos) s) pos.

(** [std::wstring]: a list of [wchar_t] code units. *)
Abbreviation wstring := (list Z).

Definition wsize (s : wstring) : Z := Z.of_nat (List.length s).

(** [s[pos]] and [s[pos] = c] on a [std::wstring]. *)
Definition wat (s : wstring) (pos : Z) : Z := nth (Z.to_nat pos) s 0.

Fixpoint set_nth (s : wstring) (n : nat) (c : Z) : wstring :=
  match s, n with
  | [], _ => []
  | _ :: s', O => c :: s'
  | x :: s', S n' => x :: set_nth s' n' c
  end.

Definition wset (s : wstring) (pos : Z) (c : Z) : wstring :=
  set_nth s (Z.to_nat pos) c.

End cxx_more.
Import cxx_more.

(** ** More functions of [utils.cpp] *)

Module utils_more.

(** [replace_all(str, from_to_pairs)]: one round of the [for] loop over the
    pairs, on the state [(first_match, first_match_pair)]. *)
Definition first_match_step (str : cstring) (cur_index : Z)
  (acc : Z * (cstring * cstring)) (p : cstring * cstring)
  : Z * (cstring * cstring) :=
  let match_ := find str (fst p) cur_index in
  if negb (match_ =? npos) && (match_ <? fst acc) then (match_, p) else acc.

(** The [while (cur_index != str.size())] loop of [replace_all]. *)
Fixpoint replace_all_loop (fuel : nat) (str : cstring)
  (from_to_pairs : list (cstring * cstring)) (cur_index : Z)
  (output : cstring) : outcome cstring :=
  match fuel with
  | O => OutOfFuel
  | S fuel' =>
      if negb (cur_index =? size str) then
        let found :=
          fold_left (first_match_step str cur_index) from_to_pairs
            (npos, ([], [])) in
        let first_match := fst found in
        let first_match_pair := snd found in
        if first_match =? npos then
          t <- substr str cur_index npos ;;
          Ok (output ++ t)
        else
          t <- substr str cur_index (size_sub first_match cur_index) ;;
          let output := output ++ t in
          let cur_index := size_add first_match (size (fst first_match_pair)) in
          let output := output ++ snd first_match_pair in
          replace_all_loop fuel' str from_to_pairs cur_index output
      else Ok output
  end.

Definition replace_all (fuel : nat) (str : cstring)
  (from_to_pairs : list (cstring * cstring)) : outcome cstring :=
  replace_all_loop fuel str from_to_pairs 0 [].

(** The [for] loop of [partition_indexes]; it returns the partitions and
    the final [start]. *)
Fixpoint partition_indexes_loop (fuel : nat) (parts size_ : Z) (i start : Z)
  (partitions : list (Z * Z)) : outcome (list (Z * Z) * Z) :=
  match fuel with
  | O => OutOfFuel
  | S fuel' =>
      if i <? uint_sub parts 1 then
        partition_indexes_loop fuel' parts size_ (uint_succ i)
          (uint_add start size_)
          (partitions ++ [(start, uint_sub (uint_add start size_) 1)])
      else Ok (partitions, start)
  end.

(** [partition_indexes(start, end, parts)]. The division by [parts = 0]
    has no defined behaviour; it is the [Throw] outcome here. *)
Definition partition_indexes (fuel : nat) (start end_ parts : Z)
  : outcome (list (Z * Z)) :=
  let count := uint_add (uint_sub end_ start) 1 in
  if parts =? 0 then Throw
  else
    let size_ := count / parts in
    r <- partition_indexes_loop fuel parts size_ 0 start [] ;;
    let '(partitions, start) := r in
    Ok (partitions ++ [(start, end_)]).

(** [join(strings, separator)] *)
Definition join (strings : list cstring) (separator : cstring)
  : outcome cstring :=
  let result :=
    fold_left (fun result str => (result ++ str) ++ separator) strings [] in
  if 0 <? size result then
    erase result (size_sub (size result) (size separator)) (size result)
  else Ok result.

(** The wide character U+FFFD, the replacement character. *)
Definition REPLACEMENT_CHARACTER : Z := 65533.

(** The loop of [clean_nonprintable_characters(text)]. The result of
    [iswprint] depends on the locale: it is a parameter. *)
Fixpoint clean_nonprintable_characters_loop (fuel : nat)
  (iswprint : Z -> bool) (text : wstring) (idx : Z) : outcome wstring :=
  match fuel with
  | O => OutOfFuel
  | S fuel' =>
      if idx <? wsize text then
        let text :=
          if negb (iswprint (wat text idx))
          then wset text idx REPLACEMENT_CHARACTER
          else text in
        clean_nonprintable_characters_loop fuel' iswprint text (size_add idx 1)
      else Ok text
  end.

Definition clean_nonprintable_characters (fuel : nat) (iswprint : Z -> bool)
  (text : wstring) : outcome wstring :=
  clean_nonprintable_characters_loop fuel iswprint text 0.

End utils_more.
Import utils_more.

(** ** More vocabulary *)

Module Spec_more.

(** The strings of [strings] with [separator] between each two. *)
Fixpoint intercalate (separator : cstring) (strings : list cstring)
  : cstring :=
  match strings with
  | [] => []
  | s :: rest =>
      match rest with
      | [] => s
      | _ :: _ => s ++ separator ++ intercalate separator rest
      end
  end.

(** The first pair of [pairs] whose pattern is a prefix of [s]. *)
Fixpoint first_prefix (pairs : list (cstring * cstring)) (s : cstring)
  : option (cstring * cstring) :=
  match pairs with
  | [] => None
  | p :: pairs' =>
      if starts_with (fst p) s then Some p else first_prefix pairs' s
  end.

(** Replacement read from left to right, one character at a time: where a
    pattern starts, the first such pair of the list is applied and the text
    of the pattern is skipped ([skip] characters are still to be skipped);
    any other character is copied. What has been put in is not read
    again. *)
Fixpoint rewrite_from (pairs : list (cstring * cstring)) (skip : nat)
  (s : cstring) : cstring :=
  match s with
  | [] => []
  | c :: s' =>
      match skip with
      | S k => rewrite_from pairs k s'
      | O =>
          match first_prefix pairs s with
          | Some p => snd p ++ rewrite_from pairs (Nat.pred (List.length (fst p))) s'
          | None => c :: rewrite_from pairs O s'
          end
      end
  end.

(** [tiles a b l]: the index pairs of [l] are intervals that are not
    empty, lie one behind the other without a gap, start at [a] and end at
    [b]. *)
Inductive tiles : Z -> Z -> list (Z * Z) -> Prop :=
| tiles_last (a b : Z) : a <= b -> tiles a b [(a, b)]
| tiles_cons (a m b : Z) (l : list (Z * Z)) :
    a <= m -> tiles (m + 1) b l -> tiles a b ((a, m) :: l).

(** The token holds a character that is not a delimiter. *)
Definition has_text (delimiters : cstring) (t : cstring) : bool :=
  existsb (not_delim delimiters) t.

(** The pairs that [n] rounds of the loop of [partition_indexes] push from
    [start] on, and the value of [start] behind them. *)
Fixpoint chunks (n : nat) (size_ start : Z) : list (Z * Z) :=
  match n with
  | O => []
  | S n' =>
      (start, uint_sub (uint_add start size_) 1)
        :: chunks n' size_ (uint_add start size_)
  end.

Fixpoint chunks_end (n : nat) (size_ start : Z) : Z :=
  match n with
  | O => start
  | S n' => chunks_end n' size_ (uint_add start size_)
  end.

(** What [clean_nonprintable_characters] makes of one character. *)
Definition clean_character (iswprint : Z -> bool) (c : Z) : Z :=
  if iswprint c then c else REPLACEMENT_CHARACTER.

(** What [tokenize_spaced] returns for a line that starts with a word:
    the words and the runs of delimiters between and behind them, each as
    one token. *)
Inductive spaced (delimiters : cstring) : cstring -> list cstring -> Prop :=
| spaced_nil : spaced delimiters [] []
| spaced_word (word : cstring) :
    word <> [] ->
    forallb (not_delim delimiters) word = true ->
    spaced delimiters word [word]
| spaced_gap (word gap rest : cstring) (toks : list cstring) :
    word <> [] ->
    forallb (not_delim delimiters) word = true ->
    gap <> [] ->
    forallb (is_delim delimiters) gap = true ->
    at_word delimiters rest ->
    spaced delimiters rest toks ->
    spaced delimiters (word ++ gap ++ rest) (word :: gap :: toks).

(** No double quote and no backslash. *)
Definition no_quote_no_escape (body : cstring) : bool :=
  forallb (fun c => negb (Ascii.eqb c QUOTE) && negb (Ascii.eqb c BACKSLASH))
    body.

(** Offset of the first occurrence of [pat] in [s]. *)
Fixpoint offset (pat s : cstring) : option nat :=
  if starts_with pat s then Some O
  else
    match s with
    | [] => None
    | _ :: s' => option_map S (offset pat s')
    end.

(** The [for] loop of [replace_all] on offsets into the text that is still
    to be read: the smallest offset of a pattern and the first pair that
    has it. *)
Definition best_step (s : cstring) (acc : option (nat * (cstring * cstring)))
  (p : cstring * cstring) : option (nat * (cstring * cstring)) :=
  match offset (fst p) s with
  | Some j =>
      match acc with
      | Some (k, _) => if (j <? k)%nat then Some (j, p) else acc
      | None => Some (j, p)
      end
  | None => acc
  end.

Definition best (pairs : list (cstring * cstring)) (s : cstring)
  (acc : option (nat * (cstring * cstring)))
  : option (nat * (cstring * cstring)) :=
  fold_left (best_step s) pairs acc.

Definition shift (m : option (nat * (cstring * cstring)))
  : option (nat * (cstring * cstring)) :=
  match m with
  | Some (j, p) => Some (S j, p)
  | None => None
  end.

(** The first place of [s], from the left, where a pattern of [pairs]
    starts, and the first pair of the list whose pattern starts there. *)
Fixpoint next_match (pairs : list (cstring * cstring)) (s : cstring)
  : option (nat * (cstring * cstring)) :=
  match first_prefix pairs s with
  | Some p => Some (O, p)
  | None =>
      match s with
      | [] => None
      | _ :: s' => shift (next_match pairs s')
      end
  end.

(** What [replace_all] makes of one character where every pattern is one
    character long. *)
Definition replace_character (pairs : list (cstring * cstring)) (c : ascii)
  : cstring :=
  match first_prefix pairs [c] with
  | Some p => snd p
  | None => [c]
  end.

(** The state [(first_match, first_match_pair)] of the [for] loop of
    [replace_all] that stands for a smallest offset behind [pre]. *)
Definition at_offset (pre : cstring) (m : option (nat * (cstring * cstring)))
  : Z * (cstring * cstring) :=
  match m with
  | Some (j, p) => (size pre + Z.of_nat j, p)
  | None => (npos, ([], []))
  end.

Definition unshift (m : option (nat * (cstring * cstring)))
  : option (nat * (cstring * cstring)) :=
  match m with
  | Some (j, p) => Some (Nat.pred j, p)
  | None => None
  end.

End Spec_more.
Import Spec_more.

(** ** The layout of the newline-expansion tokenizer *)

Module Spec_nl.

(** [nl_words d rest words toks]: [rest] is empty or starts with a word;
    [words] are its words, and [toks] are these words with one line feed
    token for each delimiter between two words. The delimiters behind the
    last word give no token. *)
Inductive nl_words (delimiters : cstring)
  : cstring -> list cstring -> list cstring -> Prop :=
| nl_words_nil : nl_words delimiters [] [] []
| nl_words_last (word gap : cstring) :
    word <> [] ->
    forallb (not_delim delimiters) word = true ->
    forallb (is_delim delimiters) gap = true ->
    nl_words delimiters (word ++ gap) [word] [word]
| nl_words_gap (word gap rest : cstring) (words toks : list cstring) :
    word <> [] ->
    forallb (not_delim delimiters) word = true ->
    gap <> [] ->
    forallb (is_delim delimiters) gap = true ->
    rest <> [] ->
    at_word delimiters rest ->
    nl_words delimiters rest words toks ->
    nl_words delimiters (word ++ gap ++ rest) (word :: words)
      (word :: repeat [LF] (List.length gap) ++ toks).

(** [nl_layout d s words toks]: [words] are the words of the line [s], and
    [toks] are one line feed token for each leading delimiter of [s],
    followed by the words with the line feed tokens between them. A line
    of delimiters only has a line feed token for each of its characters. *)
Inductive nl_layout (delimiters : cstring)
  : cstring -> list cstring -> list cstring -> Prop :=
| nl_layout_intro (gap rest : cstring) (words toks : list cstring) :
    forallb (is_delim delimiters) gap = true ->
    at_word delimiters rest ->
    nl_words delimiters rest words toks ->
    nl_layout delimiters (gap ++ rest) words
      (repeat [LF] (List.length gap) ++ toks).

End Spec_nl.
Import Spec_nl.

(** ** Lists, sizes and positions *)

Lemma size_app (a b : cstring) : size (a ++ b) = size a + size b.
Proof. unfold size. rewrite length_app. lia. Qed.

Lemma size_nonneg (a : cstring) : 0 <= size a.
Proof. unfold size. lia. Qed.

Lemma size_cons (c : ascii) (a : cstring) : size (c :: a) = 1 + size a.
Proof. unfold size. cbn [List.length]. lia. Qed.

Lemma run_skip (p : ascii -> bool) (s : cstring) :
  run_while p s ++ skip_while p s = s.
Proof.
  induction s as [|c s IH]; cbn; [reflexivity|].
  destruct (p c); cbn; [now rewrite IH | reflexivity].
Qed.

Lemma run_while_all (p : ascii -> bool) (s : cstring) :
  forallb p (run_while p s) = true.
Proof.
  induction s as [|c s IH]; cbn; [reflexivity|].
  destruct (p c) eqn:E; cbn; [now rewrite E | reflexivity].
Qed.

Lemma skip_while_head (p : ascii -> bool) (s : cstring) :
  match skip_while p s with
  | [] => True
  | c :: _ => p c = false
  end.
Proof.
  induction s as [|c s IH]; cbn; [exact I|].
  destruct (p c) eqn:E; [exact IH | exact E].
Qed.

Lemma skip_while_length (p : ascii -> bool) (s : cstring) :
  (List.length (skip_while p s) <= List.length s)%nat.
Proof.
  induction s as [|c s IH]; cbn; [lia|].
  destruct (p c); cbn; lia.
Qed.

Lemma run_while_cons_true (p : ascii -> bool) (c : ascii) (s : cstring) :
  p c = true -> run_while p (c :: s) = c :: run_while p s.
Proof. intros H. cbn. now rewrite H. Qed.

Lemma skip_while_cons_true (p : ascii -> bool) (c : ascii) (s : cstring) :
  p c = true -> skip_while p (c :: s) = skip_while p s.
Proof. intros H. cbn. now rewrite H. Qed.

Lemma not_delim_false (d : cstring) (c : ascii) :
  not_delim d c = false <-> is_delim d c = true.
Proof. unfold not_delim. destruct (is_delim d c); cbn; intuition congruence. Qed.

Lemma not_delim_true (d : cstring) (c : ascii) :
  not_delim d c = true <-> is_delim d c = false.
Proof. unfold not_delim. destruct (is_delim d c); cbn; intuition congruence. Qed.

Lemma skipn_size (pre rest : cstring) :
  skipn (Z.to_nat (size pre)) (pre ++ rest) = rest.
Proof.
  unfold size. rewrite Nat2Z.id.
  induction pre as [|c pre IH]; [reflexivity | exact IH].
Qed.

Lemma firstn_size (a b : cstring) :
  firstn (Z.to_nat (size a)) (a ++ b) = a.
Proof.
  unfold size. rewrite Nat2Z.id.
  induction a as [|c a IH]; cbn; [reflexivity | now rewrite IH].
Qed.

Lemma firstn_size_all (a : cstring) (n : Z) :
  size a <= n -> firstn (Z.to_nat n) a = a.
Proof.
  intros H. apply firstn_all2. unfold size in H. lia.
Qed.

Lemma find_if_from_run (p q : ascii -> bool) (s : cstring) (idx : Z) :
  (forall c, q c = negb (p c)) ->
  find_if_from p s idx =
  match skip_while q s with
  | [] => npos
  | _ :: _ => idx + size (run_while q s)
  end.
Proof.
  intros Hq. revert idx.
  induction s as [|c s IH]; intros idx; cbn [find_if_from skip_while run_while];
    [reflexivity|].
  rewrite Hq. destruct (p c); cbn [negb].
  - unfold size. cbn. lia.
  - rewrite IH. destruct (skip_while q s); [reflexivity|].
    rewrite size_cons. lia.
Qed.

Section Positions.

Variable d : cstring.

Lemma find_at_npos (p : ascii -> bool) (s : cstring) :
  size s < npos ->
  (if size s <=? npos then npos
   else find_if_from p (skipn (Z.to_nat npos) s) npos) = npos.
Proof.
  intros H. destruct (size s <=? npos) eqn:E; [reflexivity|].
  apply Z.leb_gt in E. lia.
Qed.

(** [find_first_not_of] from the start of a suffix skips its leading run of
    delimiters. *)
Lemma find_first_not_of_pos_of (pre rest : cstring) :
  size (pre ++ rest) < npos ->
  find_first_not_of (pre ++ rest) d (pos_of pre rest) =
  pos_of (pre ++ run_while (is_delim d) rest) (skip_while (is_delim d) rest).
Proof.
  intros Hs. unfold find_first_not_of.
  destruct rest as [|c rest].
  - cbn [pos_of skip_while]. now apply find_at_npos.
  - cbn [pos_of]. rewrite size_app, size_cons in *.
    pose proof (size_nonneg rest). pose proof (size_nonneg pre).
    destruct (size pre + (1 + size rest) <=? size pre) eqn:E;
      [apply Z.leb_le in E; lia|].
    rewrite skipn_size.
    rewrite (find_if_from_run (not_delim d) (is_delim d)).
    + unfold pos_of. destruct (skip_while (is_delim d) (c :: rest));
        [reflexivity | now rewrite size_app].
    + intros x. unfold not_delim. now rewrite negb_involutive.
Qed.

(** [find_first_of] from the start of a suffix skips its leading run of
    characters that are not delimiters. *)
Lemma find_first_of_pos_of (pre rest : cstring) :
  size (pre ++ rest) < npos ->
  find_first_of (pre ++ rest) d (pos_of pre rest) =
  pos_of (pre ++ run_while (not_delim d) rest) (skip_while (not_delim d) rest).
Proof.
  intros Hs. unfold find_first_of.
  destruct rest as [|c rest].
  - cbn [pos_of skip_while]. now apply find_at_npos.
  - cbn [pos_of]. rewrite size_app, size_cons in *.
    pose proof (size_nonneg rest). pose proof (size_nonneg pre).
    destruct (size pre + (1 + size rest) <=? size pre) eqn:E;
      [apply Z.leb_le in E; lia|].
    rewrite skipn_size.
    rewrite (find_if_from_run (is_delim d) (not_delim d)).
    + unfold pos_of. destruct (skip_while (not_delim d) (c :: rest));
        [reflexivity | now rewrite size_app].
    + intros x. reflexivity.
Qed.

(** The substring between the starts of two suffixes. *)
Lemma substr_pos_of (pre mid rest : cstring) :
  size (pre ++ mid ++ rest) < npos ->
  mid ++ rest <> [] ->
  substr (pre ++ mid ++ rest) (pos_of pre (mid ++ rest))
    (size_sub (pos_of (pre ++ mid) rest) (pos_of pre (mid ++ rest)))
  = Ok mid.
Proof.
  intros Hs Hne. unfold substr.
  assert (Hp : pos_of pre (mid ++ rest) = size pre).
  { unfold pos_of. destruct (mid ++ rest); [congruence | reflexivity]. }
  rewrite Hp. rewrite !size_app in *.
  pose proof (size_nonneg pre). pose proof (size_nonneg mid).
  pose proof (size_nonneg rest).
  destruct (size pre + (size mid + size rest) <? size pre) eqn:E;
    [apply Z.ltb_lt in E; lia|].
  rewrite skipn_size. cbv zeta. apply f_equal.
  unfold size_sub, pos_of. destruct rest as [|c rest].
  - rewrite app_nil_r. apply firstn_size_all.
    change (size []) with 0 in *.
    rewrite Z.mod_small by (unfold npos in *; lia). lia.
  - rewrite size_app.
    replace (size pre + size mid - size pre) with (size mid) by lia.
    rewrite Z.mod_small by (unfold npos in *; lia).
    rewrite Z.min_l by (rewrite size_cons in *; lia).
    apply firstn_size.
Qed.

(** The substring from the start of the string to the start of a suffix. *)
Lemma substr_prefix (pre rest : cstring) :
  size (pre ++ rest) < npos ->
  substr (pre ++ rest) 0 (pos_of pre rest) = Ok pre.
Proof.
  intros Hs. unfold substr.
  pose proof (size_nonneg (pre ++ rest)).
  destruct (size (pre ++ rest) <? 0) eqn:E; [apply Z.ltb_lt in E; lia|].
  cbn [Z.to_nat skipn]. cbv zeta. apply f_equal. rewrite Z.sub_0_r.
  unfold pos_of. destruct rest as [|c rest].
  - rewrite app_nil_r in *. apply firstn_size_all. lia.
  - rewrite size_app, size_cons. pose proof (size_nonneg rest).
    rewrite Z.min_l by lia. apply firstn_size.
Qed.

(** The substring from the start of a suffix to the end. *)
Lemma substr_suffix (pre rest : cstring) :
  size (pre ++ rest) < npos ->
  substr (pre ++ rest) (size pre) npos = Ok rest.
Proof.
  intros Hs. unfold substr. rewrite size_app in *.
  pose proof (size_nonneg pre). pose proof (size_nonneg rest).
  destruct (size pre + size rest <? size pre) eqn:E;
    [apply Z.ltb_lt in E; lia|].
  rewrite skipn_size. cbv zeta. apply f_equal. apply firstn_size_all. lia.
Qed.

End Positions.

Lemma run_while_app (p : ascii -> bool) (a b : cstring) :
  forallb p a = true ->
  match b with [] => True | c :: _ => p c = false end ->
  run_while p (a ++ b) = a /\ skip_while p (a ++ b) = b.
Proof.
  intros Ha Hb. induction a as [|x a IH]; cbn in *.
  - destruct b as [|c b]; cbn; [auto|]. now rewrite Hb.
  - apply andb_prop in Ha as [Hx Ha]. rewrite Hx.
    destruct (IH Ha) as [-> ->]. auto.
Qed.

Section Splitting.

Variable d : cstring.

Lemma at_gap_head (s : cstring) :
  at_gap d s -> match s with [] => True | c :: _ => not_delim d c = false end.
Proof. destruct s; [auto|]. cbn. intros H. now apply not_delim_false. Qed.

Lemma at_word_head (s : cstring) :
  at_word d s -> match s with [] => True | c :: _ => is_delim d c = false end.
Proof. destruct s; auto. Qed.

Lemma find_first_of_split (s pre word rest : cstring) :
  s = pre ++ word ++ rest ->
  size s < npos ->
  forallb (not_delim d) word = true ->
  at_gap d rest ->
  find_first_of s d (pos_of pre (word ++ rest)) = pos_of (pre ++ word) rest.
Proof.
  intros -> Hs Hw Hg. rewrite find_first_of_pos_of by assumption.
  destruct (run_while_app (not_delim d) word rest Hw (at_gap_head _ Hg))
    as [-> ->].
  reflexivity.
Qed.

Lemma find_first_not_of_split (s pre gap rest : cstring) :
  s = pre ++ gap ++ rest ->
  size s < npos ->
  forallb (is_delim d) gap = true ->
  at_word d rest ->
  find_first_not_of s d (pos_of pre (gap ++ rest)) = pos_of (pre ++ gap) rest.
Proof.
  intros -> Hs Hw Hg. rewrite find_first_not_of_pos_of by assumption.
  destruct (run_while_app (is_delim d) gap rest Hw (at_word_head _ Hg))
    as [-> ->].
  reflexivity.
Qed.

Lemma substr_split (s pre mid rest : cstring) :
  s = pre ++ mid ++ rest ->
  size s < npos ->
  mid ++ rest <> [] ->
  substr s (pos_of pre (mid ++ rest))
    (size_sub (pos_of (pre ++ mid) rest) (pos_of pre (mid ++ rest)))
  = Ok mid.
Proof. intros ->. apply substr_pos_of. Qed.

(** A suffix at a word is that word, the gap behind it, and a suffix at a
    word again. *)
Lemma word_gap_split (rest : cstring) :
  at_word d rest ->
  rest <> [] ->
  exists word gap rest',
    rest = word ++ gap ++ rest' /\
    word <> [] /\
    forallb (not_delim d) word = true /\
    forallb (is_delim d) gap = true /\
    at_gap d (gap ++ rest') /\
    at_word d rest' /\
    (rest' <> [] -> gap <> []).
Proof.
  intros Hw Hne.
  exists (run_while (not_delim d) rest).
  exists (run_while (is_delim d) (skip_while (not_delim d) rest)).
  exists (skip_while (is_delim d) (skip_while (not_delim d) rest)).
  rewrite run_skip.
  pose proof (skip_while_head (not_delim d) rest) as H1.
  pose proof (skip_while_head (is_delim d) (skip_while (not_delim d) rest))
    as H2.
  repeat split.
  - now rewrite run_skip.
  - destruct rest as [|c r]; [congruence|]. cbn in Hw.
    rewrite run_while_cons_true by now apply not_delim_true. discriminate.
  - apply run_while_all.
  - apply run_while_all.
  - destruct (skip_while (not_delim d) rest); [exact I|].
    now apply not_delim_false.
  - destruct (skip_while (is_delim d) (skip_while (not_delim d) rest));
      [exact I | exact H2].
  - intros Hr Hg.
    destruct (skip_while (not_delim d) rest) as [|c r]; [now cbn in Hr|].
    apply not_delim_false in H1. rewrite run_while_cons_true in Hg by exact H1.
    discriminate.
Qed.

Lemma find_first_of_npos (s : cstring) :
  size s < npos -> find_first_of s d npos = npos.
Proof. intros H. unfold find_first_of. now apply find_at_npos. Qed.

Lemma pos_of_cons_lt (s pre rest : cstring) :
  s = pre ++ rest -> size s < npos -> rest <> [] ->
  pos_of pre rest = size pre /\ size pre < npos.
Proof.
  intros -> Hs Hne. rewrite size_app in Hs. pose proof (size_nonneg rest).
  destruct rest; [congruence|]. cbn [pos_of]. lia.
Qed.

(** The start of the line: the leading gap and a suffix at a word. *)
Lemma leading_gap_split (s : cstring) :
  exists gap rest,
    s = gap ++ rest /\
    forallb (is_delim d) gap = true /\
    at_word d rest.
Proof.
  exists (run_while (is_delim d) s), (skip_while (is_delim d) s).
  rewrite run_skip. repeat split.
  - apply run_while_all.
  - pose proof (skip_while_head (is_delim d) s) as H.
    destruct (skip_while (is_delim d) s); [exact I | exact H].
Qed.

Lemma find_first_not_of_start (s gap rest : cstring) :
  s = gap ++ rest ->
  size s < npos ->
  forallb (is_delim d) gap = true ->
  at_word d rest ->
  find_first_not_of s d 0 = pos_of gap rest.
Proof.
  intros Es Hs Hgap Hw.
  pose proof (find_first_not_of_split s [] gap rest Es Hs Hgap Hw) as H.
  destruct gap as [|g gap]; destruct rest as [|r rest];
    try exact H.
  subst s. reflexivity.
Qed.

(** *** [splits] *)

Lemma splits_gap_app (gap s : cstring) (toks : list cstring) :
  forallb (is_delim d) gap = true ->
  splits d s toks ->
  splits d (gap ++ s) toks.
Proof.
  intros Hg Hs. destruct Hs as [g Hall | g tok rest toks Hall Hne Htok Hr Hs].
  - apply splits_nil. rewrite forallb_app. now rewrite Hg, Hall.
  - rewrite app_assoc. apply splits_cons; try assumption.
    rewrite forallb_app. now rewrite Hg, Hall.
Qed.

Lemma splits_tokens (s : cstring) (toks : list cstring) :
  splits d s toks ->
  Forall (fun t => t <> [] /\ forallb (not_delim d) t = true) toks.
Proof. induction 1; constructor; auto. Qed.

Lemma filter_all_true (p : ascii -> bool) (s : cstring) :
  forallb p s = true -> filter p s = s.
Proof.
  induction s as [|c s IH]; cbn; [reflexivity|].
  intros H. apply andb_prop in H as [Hc H]. rewrite Hc. now rewrite IH.
Qed.

Lemma filter_not_delim_gap (gap : cstring) :
  forallb (is_delim d) gap = true -> filter (not_delim d) gap = [].
Proof.
  induction gap as [|c gap IH]; cbn; [reflexivity|].
  intros H. apply andb_prop in H as [Hc H].
  apply not_delim_false in Hc. rewrite Hc. auto.
Qed.

Lemma splits_concat (s : cstring) (toks : list cstring) :
  splits d s toks -> List.concat toks = filter (not_delim d) s.
Proof.
  induction 1 as [g Hall | g tok rest toks Hall Hne Htok Hr Hs IH].
  - cbn. now rewrite filter_not_delim_gap.
  - cbn [List.concat]. rewrite !filter_app, filter_not_delim_gap by assumption.
    rewrite filter_all_true by assumption. now rewrite IH.
Qed.

Lemma splits_nil_iff (s : cstring) (toks : list cstring) :
  splits d s toks -> (toks = [] <-> forallb (is_delim d) s = true).
Proof.
  intros H. destruct H as [g Hall | g tok rest toks Hall Hne Htok Hr Hs].
  - tauto.
  - split; [discriminate|]. intros H. exfalso.
    rewrite !forallb_app in H.
    apply andb_prop in H as [_ H]. apply andb_prop in H as [H _].
    destruct tok as [|c tok]; [congruence|]. cbn in H, Htok.
    apply andb_prop in H as [H _]. apply andb_prop in Htok as [Htok _].
    apply not_delim_true in Htok. congruence.
Qed.

Lemma tok_at_word (tok rest : cstring) :
  tok <> [] -> forallb (not_delim d) tok = true ->
  match tok ++ rest with [] => True | c :: _ => is_delim d c = false end.
Proof.
  intros Hne H. destruct tok as [|c tok]; [congruence|]. cbn in *.
  apply andb_prop in H as [H _]. now apply not_delim_true.
Qed.

(** [splits] relates a line to one token sequence only. *)
Lemma splits_functional (s : cstring) (toks1 toks2 : list cstring) :
  splits d s toks1 -> splits d s toks2 -> toks1 = toks2.
Proof.
  intros H1. revert toks2.
  induction H1 as [g Hall | g tok rest toks Hall Hne Htok Hr Hs IH];
    intros toks2 H2.
  - symmetry. apply (splits_nil_iff _ _ H2). exact Hall.
  - remember (g ++ tok ++ rest) as s eqn:Es.
    destruct H2 as [g' Hall' | g' tok' rest' toks' Hall' Hne' Htok' Hr' Hs'].
    + exfalso. subst g'.
      pose proof (splits_nil_iff _ _
        (splits_cons d g tok rest toks Hall Hne Htok Hr Hs)) as [_ Hx].
      specialize (Hx Hall'). discriminate.
    + pose proof (run_while_app (is_delim d) g (tok ++ rest) Hall
                    (tok_at_word tok rest Hne Htok)) as [Ea Eb].
      pose proof (run_while_app (is_delim d) g' (tok' ++ rest') Hall'
                    (tok_at_word tok' rest' Hne' Htok')) as [Ea' Eb'].
      rewrite Es in Ea', Eb'. rewrite Ea in Ea'. rewrite Eb in Eb'.
      pose proof (run_while_app (not_delim d) tok rest Htok
                    (at_gap_head _ Hr)) as [Ec Ed].
      pose proof (run_while_app (not_delim d) tok' rest' Htok'
                    (at_gap_head _ Hr')) as [Ec' Ed'].
      rewrite <- Eb' in Ec', Ed'. rewrite Ec in Ec'. rewrite Ed in Ed'.
      subst tok' rest'. f_equal. now apply IH.
Qed.

(** *** The loop of [tokenize] *)

Lemma tokenize_loop_splits (fuel : nat) :
  forall (s pre rest : cstring) (toks : list cstring),
    s = pre ++ rest ->
    size s < npos ->
    at_word d rest ->
    (List.length rest < fuel)%nat ->
    exists toks',
      tokenize_loop fuel s d toks (pos_of pre rest)
        (find_first_of s d (pos_of pre rest)) = Ok (toks ++ toks') /\
      splits d rest toks'.
Proof.
  induction fuel as [|fuel IH]; intros s pre rest toks Es Hs Hw Hf; [lia|].
  destruct rest as [|c r].
  - exists []. cbn [pos_of]. rewrite find_first_of_npos by assumption.
    cbn. rewrite app_nil_r. split; [reflexivity|]. now apply splits_nil.
  - destruct (word_gap_split (c :: r) Hw ltac:(discriminate))
      as (word & gap & rest' & Er & Hne & Hword & Hgap & Hg & Hw' & Hgne).
    rewrite Er in *. clear Er c r.
    destruct (pos_of_cons_lt s pre (word ++ gap ++ rest') Es Hs) as [Ep Hlt].
    { destruct word; [congruence | discriminate]. }
    rewrite (find_first_of_split s pre word (gap ++ rest')) by assumption.
    cbn [tokenize_loop].
    replace (negb (npos =? pos_of pre (word ++ gap ++ rest')))
      with true by (rewrite Ep; symmetry; apply negb_true_iff, Z.eqb_neq; lia).
    rewrite orb_true_r.
    rewrite (substr_split s pre word (gap ++ rest')); try assumption.
    2:{ destruct word; [congruence | discriminate]. }
    cbn [bind].
    rewrite (find_first_not_of_split s (pre ++ word) gap rest');
      try assumption.
    2:{ now rewrite <- app_assoc. }
    destruct (IH s ((pre ++ word) ++ gap) rest' (toks ++ [word]))
      as (toks' & Hrun & Hsp); try assumption.
    { now rewrite <- !app_assoc. }
    { rewrite !length_app in Hf.
      destruct word; [congruence | cbn in Hf; lia]. }
    exists (word :: toks'). split.
    + rewrite Hrun. now rewrite <- app_assoc.
    + apply (splits_cons d [] word (gap ++ rest') toks'); auto.
      now apply splits_gap_app.
Qed.

Lemma tokenize_splits (fuel : nat) (s : cstring) :
  size s < npos ->
  (List.length s < fuel)%nat ->
  exists toks, tokenize fuel s d = Ok toks /\ splits d s toks.
Proof.
  intros Hs Hf.
  destruct (leading_gap_split s) as (gap & rest & Es & Hgap & Hw).
  unfold tokenize.
  rewrite (find_first_not_of_start s gap rest) by assumption.
  destruct (tokenize_loop_splits fuel s gap rest [] Es Hs Hw)
    as (toks & Hrun & Hsp).
  { rewrite Es, length_app in Hf. lia. }
  exists toks. split; [exact Hrun|].
  rewrite Es. now apply splits_gap_app.
Qed.

End Splitting.

Section Spaced.

Variable d : cstring.

(** *** The loop of [tokenize_spaced] *)

Lemma tokenize_spaced_loop_concat (fuel : nat) :
  forall (s pre rest : cstring) (toks : list cstring),
    s = pre ++ rest ->
    size s < npos ->
    at_word d rest ->
    (List.length rest < fuel)%nat ->
    exists toks',
      tokenize_spaced_loop fuel s d toks (pos_of pre rest)
        (find_first_of s d (pos_of pre rest)) = Ok (toks ++ toks') /\
      List.concat toks' = rest.
Proof.
  induction fuel as [|fuel IH]; intros s pre rest toks Es Hs Hw Hf; [lia|].
  destruct rest as [|c r].
  - exists []. cbn [pos_of]. rewrite find_first_of_npos by assumption.
    cbn. now rewrite app_nil_r.
  - destruct (word_gap_split d (c :: r) Hw ltac:(discriminate))
      as (word & gap & rest' & Er & Hne & Hword & Hgap & Hg & Hw' & Hgne).
    rewrite Er in *. clear Er c r.
    destruct (pos_of_cons_lt s pre (word ++ gap ++ rest') Es Hs) as [Ep Hlt].
    { destruct word; [congruence | discriminate]. }
    rewrite (find_first_of_split d s pre word (gap ++ rest')) by assumption.
    cbn [tokenize_spaced_loop].
    replace (negb (npos =? pos_of pre (word ++ gap ++ rest')))
      with true by (rewrite Ep; symmetry; apply negb_true_iff, Z.eqb_neq; lia).
    rewrite orb_true_r.
    rewrite (substr_split s pre word (gap ++ rest')); try assumption.
    2:{ destruct word; [congruence | discriminate]. }
    cbn [bind].
    assert (Es' : s = (pre ++ word) ++ gap ++ rest')
      by now rewrite <- app_assoc.
    rewrite (find_first_not_of_split d s (pre ++ word) gap rest');
      try assumption.
    assert (Hf' : (List.length rest' < fuel)%nat).
    { rewrite !length_app in Hf.
      destruct word; [congruence | cbn in Hf; lia]. }
    assert (Es'' : s = ((pre ++ word) ++ gap) ++ rest')
      by now rewrite <- !app_assoc.
    destruct (list_eq_dec ascii_dec (gap ++ rest') []) as [Enil | Hnn].
    + (* the word ends the line *)
      apply app_eq_nil in Enil as [-> ->].
      cbn [pos_of]. rewrite Z.ltb_irrefl. cbn [bind].
      destruct (IH s ((pre ++ word) ++ []) [] (toks ++ [word]))
        as (toks' & Hrun & Hc); try assumption.
      cbn [pos_of] in Hrun.
      exists (word :: toks'). split.
      * rewrite Hrun. now rewrite <- app_assoc.
      * cbn [List.concat]. now rewrite Hc.
    + (* a gap follows the word *)
      destruct (pos_of_cons_lt s (pre ++ word) (gap ++ rest') Es' Hs Hnn)
        as [Ep' Hlt'].
      assert (Hgne' : gap <> []).
      { destruct rest'; [now rewrite app_nil_r in Hnn | apply Hgne].
        discriminate. }
      assert (Hlt2 : (pos_of (pre ++ word) (gap ++ rest')
                      <? pos_of ((pre ++ word) ++ gap) rest') = true).
      { apply Z.ltb_lt. rewrite Ep'. unfold pos_of.
        destruct rest'; [exact Hlt'|].
        rewrite (size_app (pre ++ word) gap).
        destruct gap; [congruence|]. rewrite size_cons.
        pose proof (size_nonneg gap). lia. }
      rewrite Hlt2.
      rewrite (substr_split s (pre ++ word) gap rest') by assumption.
      cbn [bind].
      destruct (IH s ((pre ++ word) ++ gap) rest' ((toks ++ [word]) ++ [gap]))
        as (toks' & Hrun & Hc); try assumption.
      exists (word :: gap :: toks'). split.
      * rewrite Hrun. now rewrite <- !app_assoc.
      * cbn [List.concat]. now rewrite Hc.
Qed.

Lemma tokenize_spaced_concat (fuel : nat) (s : cstring) :
  size s < npos ->
  (List.length s < fuel)%nat ->
  exists toks, tokenize_spaced fuel s d = Ok toks /\ List.concat toks = s.
Proof.
  intros Hs Hf.
  destruct (leading_gap_split d s) as (gap & rest & Es & Hgap & Hw).
  unfold tokenize_spaced.
  rewrite (find_first_not_of_start d s gap rest) by assumption.
  assert (Hfirst : exists toks0,
    (if negb (pos_of gap rest =? 0)
     then bind (substr s 0 (pos_of gap rest)) (fun t => Ok [t])
     else Ok []) = Ok toks0 /\ List.concat toks0 = gap).
  { destruct (pos_of gap rest =? 0) eqn:E0; cbn [negb].
    - exists []. split; [reflexivity|]. apply Z.eqb_eq in E0.
      unfold pos_of in E0. destruct rest; [discriminate|].
      destruct gap; [reflexivity | rewrite size_cons in E0].
      pose proof (size_nonneg gap). lia.
    - exists [gap]. subst s. rewrite substr_prefix by assumption.
      split; [reflexivity | apply app_nil_r]. }
  destruct Hfirst as (toks0 & -> & Hc0). cbn [bind].
  destruct (tokenize_spaced_loop_concat fuel s gap rest toks0 Es Hs Hw)
    as (toks & Hrun & Hc).
  { rewrite Es, length_app in Hf. lia. }
  exists (toks0 ++ toks). split; [exact Hrun|].
  rewrite concat_app, Hc0, Hc. now symmetry.
Qed.

End Spaced.

Section Newlines.

Variable d : cstring.

Lemma push_newlines_true (fuel : nat) :
  forall (bound i : Z) (toks : list cstring),
    0 <= i ->
    bound < uint_max ->
    (Z.to_nat (bound - i) < fuel)%nat ->
    push_newlines fuel true bound i toks =
    Ok (toks ++ repeat [LF] (Z.to_nat (bound - i))).
Proof.
  induction fuel as [|fuel IH]; intros bound i toks Hi Hb Hf; [lia|].
  cbn [push_newlines andb].
  destruct (i <? bound) eqn:E.
  - apply Z.ltb_lt in E.
    unfold uint_succ. rewrite Z.mod_small by lia.
    rewrite IH by lia.
    replace (Z.to_nat (bound - i)) with (S (Z.to_nat (bound - (i + 1))))
      by lia.
    cbn [repeat]. now rewrite <- app_assoc.
  - apply Z.ltb_ge in E.
    replace (Z.to_nat (bound - i)) with O by lia.
    cbn [repeat]. now rewrite app_nil_r.
Qed.

Lemma push_newlines_false (fuel : nat) (bound i : Z) (toks : list cstring) :
  push_newlines (S fuel) false bound i toks = Ok toks.
Proof. reflexivity. Qed.

Lemma count_newline_tokens_app (a b : list cstring) :
  count_newline_tokens (a ++ b) =
  (count_newline_tokens a + count_newline_tokens b)%nat.
Proof. unfold count_newline_tokens. now rewrite filter_app, length_app. Qed.

Lemma count_newline_tokens_repeat (n : nat) :
  count_newline_tokens (repeat [LF] n) = n.
Proof.
  unfold count_newline_tokens.
  induction n as [|n IH]; cbn in *; [reflexivity | now rewrite IH].
Qed.

Lemma existsb_not_delim_gap (gap : cstring) :
  forallb (is_delim d) gap = true -> existsb (not_delim d) gap = false.
Proof.
  induction gap as [|c gap IH]; cbn; [reflexivity|].
  intros H. apply andb_prop in H as [Hc H].
  apply not_delim_false in Hc. rewrite Hc. auto.
Qed.

Lemma count_inner_delims_word (word rest : cstring) :
  forallb (not_delim d) word = true ->
  count_inner_delims d (word ++ rest) = count_inner_delims d rest.
Proof.
  induction word as [|c word IH]; cbn; [reflexivity|].
  intros H. apply andb_prop in H as [Hc H].
  apply not_delim_true in Hc. rewrite Hc. cbn. auto.
Qed.

Lemma count_inner_delims_trailing (gap : cstring) :
  forallb (is_delim d) gap = true -> count_inner_delims d gap = O.
Proof.
  induction gap as [|c gap IH]; cbn; [reflexivity|].
  intros H. apply andb_prop in H as [Hc H].
  rewrite existsb_not_delim_gap by assumption.
  rewrite andb_false_r. auto.
Qed.

Lemma count_inner_delims_gap (gap rest : cstring) :
  forallb (is_delim d) gap = true ->
  at_word d rest ->
  rest <> [] ->
  count_inner_delims d (gap ++ rest) =
  (List.length gap + count_inner_delims d rest)%nat.
Proof.
  intros Hg Hw Hne.
  assert (Hex : forall g, existsb (not_delim d) (g ++ rest) = true).
  { intros g. rewrite existsb_app. destruct rest as [|c r]; [congruence|].
    cbn in Hw |- *. apply not_delim_true in Hw. rewrite Hw.
    cbn. apply orb_true_r. }
  induction gap as [|c gap IH]; cbn; [reflexivity|].
  cbn in Hg. apply andb_prop in Hg as [Hc Hg].
  rewrite Hc, Hex. cbn. now rewrite IH.
Qed.

End Newlines.

Section NewlineTokenizer.

Variable d : cstring.

Lemma uint_max_lt_npos (n : Z) : n < uint_max -> n < npos.
Proof. unfold uint_max, npos, size_max. lia. Qed.

Lemma count_newline_tokens_cons (t : cstring) (toks : list cstring) :
  count_newline_tokens (t :: toks) =
  (count_newline_tokens [t] + count_newline_tokens toks)%nat.
Proof. apply (count_newline_tokens_app [t] toks). Qed.

(** *** The loop of [tokenize_nl] *)

Lemma tokenize_nl_loop_count (fuel_in fuel : nat) :
  forall (s pre rest : cstring) (toks : list cstring),
    s = pre ++ rest ->
    size s < uint_max ->
    at_word d rest ->
    (List.length rest < fuel)%nat ->
    (List.length s < fuel_in)%nat ->
    exists toks' words,
      tokenize_nl_loop fuel_in fuel s d toks (pos_of pre rest)
        (find_first_of s d (pos_of pre rest)) = Ok (toks ++ toks') /\
      splits d rest words /\
      count_newline_tokens toks' =
      (count_inner_delims d rest + count_newline_tokens words)%nat.
Proof.
  induction fuel as [|fuel IH]; intros s pre rest toks Es Hu Hw Hf Hfi; [lia|].
  pose proof (uint_max_lt_npos _ Hu) as Hs.
  destruct rest as [|c r].
  - exists [], []. cbn [pos_of]. rewrite find_first_of_npos by assumption.
    cbn. rewrite app_nil_r. repeat split. now apply splits_nil.
  - destruct (word_gap_split d (c :: r) Hw ltac:(discriminate))
      as (word & gap & rest' & Er & Hne & Hword & Hgap & Hg & Hw' & Hgne).
    rewrite Er in *. clear Er c r.
    destruct (pos_of_cons_lt s pre (word ++ gap ++ rest') Es Hs) as [Ep Hlt].
    { destruct word; [congruence | discriminate]. }
    rewrite (find_first_of_split d s pre word (gap ++ rest')) by assumption.
    cbn [tokenize_nl_loop].
    replace (negb (npos =? pos_of pre (word ++ gap ++ rest')))
      with true by (rewrite Ep; symmetry; apply negb_true_iff, Z.eqb_neq; lia).
    rewrite orb_true_r.
    rewrite (substr_split s pre word (gap ++ rest')); try assumption.
    2:{ destruct word; [congruence | discriminate]. }
    cbn [bind].
    assert (Es' : s = (pre ++ word) ++ gap ++ rest')
      by now rewrite <- app_assoc.
    rewrite (find_first_not_of_split d s (pre ++ word) gap rest');
      try assumption.
    assert (Hf' : (List.length rest' < fuel)%nat).
    { rewrite !length_app in Hf.
      destruct word; [congruence | cbn in Hf; lia]. }
    assert (Es'' : s = ((pre ++ word) ++ gap) ++ rest')
      by now rewrite <- !app_assoc.
    assert (Hsplit : forall words, splits d rest' words ->
                     splits d (word ++ gap ++ rest') (word :: words)).
    { intros words Hsp.
      apply (splits_cons d [] word (gap ++ rest') words); auto.
      now apply splits_gap_app. }
    destruct rest' as [|c r].
    + (* the word and a trailing gap end the line: nothing is pushed *)
      cbn [pos_of]. rewrite Z.eqb_refl. cbn [negb andb].
      destruct fuel_in as [|fuel_in]; [lia|].
      rewrite push_newlines_false. cbn [bind].
      destruct (IH s ((pre ++ word) ++ gap) [] (toks ++ [word]))
        as (toks' & words & Hrun & Hsp & Hc); try assumption.
      cbn [pos_of] in Hrun.
      exists (word :: toks'), (word :: words). split; [|split].
      * rewrite Hrun. now rewrite <- app_assoc.
      * now apply Hsplit.
      * rewrite count_newline_tokens_cons, Hc.
        rewrite (count_newline_tokens_cons word words).
        rewrite (count_inner_delims_word d word) by assumption.
        rewrite app_nil_r.
        rewrite (count_inner_delims_trailing d gap) by assumption.
        cbn [count_inner_delims]. lia.
    + (* a gap between two words: one token for each of its characters *)
      assert (Hnn : gap ++ c :: r <> []) by (destruct gap; discriminate).
      destruct (pos_of_cons_lt s (pre ++ word) (gap ++ c :: r) Es' Hs Hnn)
        as [Ep' Hlt'].
      destruct (pos_of_cons_lt s ((pre ++ word) ++ gap) (c :: r) Es'' Hs)
        as [Ep'' Hlt'']; [discriminate|].
      rewrite Ep'.
      replace (pos_of ((pre ++ word) ++ gap) (c :: r) =? npos) with false
        by (symmetry; apply Z.eqb_neq; lia).
      replace (size (pre ++ word) =? npos) with false
        by (symmetry; apply Z.eqb_neq; lia).
      cbn [negb andb].
      assert (Eb : size_sub (pos_of ((pre ++ word) ++ gap) (c :: r))
                     (size (pre ++ word)) = size gap).
      { rewrite Ep''. unfold size_sub. rewrite (size_app (pre ++ word) gap).
        replace (size (pre ++ word) + size gap - size (pre ++ word))
          with (size gap) by lia.
        pose proof (size_nonneg gap). pose proof (size_nonneg (pre ++ word)).
        rewrite (size_app (pre ++ word) gap) in Hlt''.
        apply Z.mod_small. unfold npos in Hlt''. lia. }
      rewrite Eb.
      assert (Hgs : size gap <= size s).
      { rewrite Es''. rewrite !size_app.
        pose proof (size_nonneg (pre ++ word)) as Hx.
        pose proof (size_nonneg (c :: r)).
        rewrite size_app in Hx. lia. }
      rewrite push_newlines_true;
        [| lia | lia | rewrite Z.sub_0_r; unfold size in *; lia].
      cbn [bind]. rewrite Z.sub_0_r. unfold size at 1. rewrite Nat2Z.id.
      destruct (IH s ((pre ++ word) ++ gap) (c :: r)
                  ((toks ++ [word]) ++ repeat [LF] (List.length gap)))
        as (toks' & words & Hrun & Hsp & Hc); try assumption.
      exists (word :: repeat [LF] (List.length gap) ++ toks'), (word :: words).
      split; [|split].
      * rewrite Hrun. now rewrite <- !app_assoc.
      * now apply Hsplit.
      * rewrite count_newline_tokens_cons, count_newline_tokens_app.
        rewrite count_newline_tokens_repeat, Hc.
        rewrite (count_newline_tokens_cons word words).
        rewrite (count_inner_delims_word d word) by assumption.
        rewrite (count_inner_delims_gap d gap)
          by (assumption || discriminate).
        lia.
Qed.

Lemma existsb_not_delim_word (gap rest : cstring) :
  at_word d rest -> rest <> [] ->
  existsb (not_delim d) (gap ++ rest) = true.
Proof.
  intros Hw Hne. rewrite existsb_app. destruct rest as [|c r]; [congruence|].
  cbn in Hw |- *. apply not_delim_true in Hw. rewrite Hw.
  cbn. apply orb_true_r.
Qed.

Lemma count_delims_gap (gap : cstring) :
  forallb (is_delim d) gap = true -> count_delims d gap = List.length gap.
Proof. intros H. unfold count_delims. now rewrite filter_all_true. Qed.

Lemma tokenize_nl_count (fuel : nat) (s : cstring) :
  size s < uint_max ->
  (List.length s < fuel)%nat ->
  exists toks words,
    tokenize_nl fuel s d = Ok toks /\
    splits d s words /\
    count_newline_tokens toks =
    ((if existsb (not_delim d) s then count_inner_delims d s
      else count_delims d s) + count_newline_tokens words)%nat.
Proof.
  intros Hu Hf. pose proof (uint_max_lt_npos _ Hu) as Hs.
  destruct (leading_gap_split d s) as (gap & rest & Es & Hgap & Hw).
  unfold tokenize_nl.
  rewrite (find_first_not_of_start d s gap rest) by assumption.
  assert (Hfirst :
    (if negb (pos_of gap rest =? npos)
     then push_newlines fuel true (pos_of gap rest) 0 []
     else push_newlines fuel true (size s) 0 [])
    = Ok (repeat [LF] (List.length gap))).
  { destruct rest as [|c r].
    - cbn [pos_of]. rewrite Z.eqb_refl. cbn [negb].
      rewrite app_nil_r in Es. subst gap.
      rewrite push_newlines_true; try lia.
      + rewrite Z.sub_0_r. unfold size. now rewrite Nat2Z.id.
      + rewrite Z.sub_0_r. unfold size. lia.
    - destruct (pos_of_cons_lt s gap (c :: r) Es Hs) as [Ep Hlt];
        [discriminate|].
      rewrite Ep.
      replace (size gap =? npos) with false by (symmetry; apply Z.eqb_neq; lia).
      cbn [negb].
      assert (size gap <= size s).
      { rewrite Es, size_app. pose proof (size_nonneg (c :: r)). lia. }
      rewrite push_newlines_true; try lia.
      + rewrite Z.sub_0_r. unfold size. now rewrite Nat2Z.id.
      + rewrite Z.sub_0_r. unfold size in *. lia. }
  rewrite Hfirst. cbn [bind].
  destruct (tokenize_nl_loop_count fuel fuel s gap rest
              (repeat [LF] (List.length gap)) Es Hu Hw)
    as (toks & words & Hrun & Hsp & Hc).
  { rewrite Es, length_app in Hf. lia. }
  { exact Hf. }
  exists (repeat [LF] (List.length gap) ++ toks), words.
  split; [exact Hrun|]. split.
  { rewrite Es. now apply splits_gap_app. }
  rewrite count_newline_tokens_app, count_newline_tokens_repeat, Hc.
  destruct rest as [|c r].
  - rewrite app_nil_r in Es. subst gap.
    rewrite existsb_not_delim_gap by assumption.
    rewrite count_delims_gap by assumption. cbn [count_inner_delims]. lia.
  - rewrite Es. rewrite existsb_not_delim_word by (assumption || discriminate).
    rewrite count_inner_delims_gap by (assumption || discriminate). lia.
Qed.

(** Where every line feed of the line is a delimiter, no word is a line
    feed token. *)
Lemma splits_no_newline_token (s : cstring) (words : list cstring) :
  splits d s words ->
  (forall c, In c s -> c = LF -> is_delim d c = true) ->
  count_newline_tokens words = O.
Proof.
  induction 1 as [g Hall | g tok rest toks Hall Hne Htok Hr Hs IH];
    intros Hlf; [reflexivity|].
  rewrite count_newline_tokens_cons, IH.
  - unfold count_newline_tokens. cbn [filter].
    destruct (is_newline_token tok) eqn:E; [|reflexivity]. exfalso.
    destruct tok as [|c [|c' tok]]; cbn in E; try discriminate.
    apply Ascii.eqb_eq in E. cbn in Htok. rewrite andb_true_r in Htok.
    apply not_delim_true in Htok.
    rewrite Hlf in Htok; [discriminate | | exact E].
    apply in_or_app. right. now left.
  - intros c Hin. apply Hlf. apply in_or_app. right. apply in_or_app. now right.
Qed.

End NewlineTokenizer.

Section NewlineLayout.

Variable d : cstring.

Lemma nl_words_nil_inv (words toks : list cstring) :
  nl_words d [] words toks -> words = [] /\ toks = [].
Proof.
  intros H. remember [] as s eqn:Es.
  destruct H as [| word gap Hne _ _ | word gap rest words toks Hne _ _ _ _ _ _].
  - split; reflexivity.
  - destruct word; [congruence | discriminate].
  - destruct word; [congruence | discriminate].
Qed.

Lemma all_delim_at_gap (gap rest : cstring) :
  forallb (is_delim d) gap = true -> at_gap d rest -> at_gap d (gap ++ rest).
Proof.
  intros Hg Hr. destruct gap as [|c gap]; [exact Hr|].
  cbn in Hg |- *. now apply andb_prop in Hg as [Hc _].
Qed.

(** The words of a layout are the tokens of the plain tokenizer. *)
Lemma nl_words_splits (rest : cstring) (words toks : list cstring) :
  nl_words d rest words toks -> splits d rest words.
Proof.
  induction 1 as [| word gap Hne Hw Hg
                  | word gap rest words toks Hne Hw Hgne Hg Hrne Hr H IH].
  - now apply splits_nil.
  - apply (splits_cons d [] word gap []); try assumption; try reflexivity.
    + now apply (all_delim_at_gap gap []) in Hg; [rewrite app_nil_r in Hg|].
    + now apply splits_nil.
  - apply (splits_cons d [] word (gap ++ rest) words); try assumption;
      try reflexivity.
    + destruct gap as [|c gap]; [congruence|].
      cbn in Hg |- *. now apply andb_prop in Hg as [Hc _].
    + now apply splits_gap_app.
Qed.

Lemma nl_layout_splits (s : cstring) (words toks : list cstring) :
  nl_layout d s words toks -> splits d s words.
Proof.
  intros [gap rest w t Hg Hw H].
  apply splits_gap_app; [exact Hg | now apply (nl_words_splits rest w t)].
Qed.

Lemma all_delim_head (gap : cstring) :
  forallb (is_delim d) gap = true ->
  match gap with [] => True | c :: _ => not_delim d c = false end.
Proof.
  destruct gap as [|c gap]; [auto|]. cbn. intros H.
  apply andb_prop in H as [Hc _]. now apply not_delim_false.
Qed.

Lemma word_gap_unique (word word' tail tail' : cstring) :
  forallb (not_delim d) word = true ->
  forallb (not_delim d) word' = true ->
  at_gap d tail ->
  at_gap d tail' ->
  word ++ tail = word' ++ tail' ->
  word = word' /\ tail = tail'.
Proof.
  intros Hw Hw' Ht Ht' E.
  destruct (run_while_app (not_delim d) word tail Hw (at_gap_head d _ Ht))
    as [E1 E2].
  destruct (run_while_app (not_delim d) word' tail' Hw' (at_gap_head d _ Ht'))
    as [E1' E2'].
  rewrite E in E1, E2. rewrite E1 in E1'. rewrite E2 in E2'. auto.
Qed.

Lemma gap_word_unique (gap gap' rest rest' : cstring) :
  forallb (is_delim d) gap = true ->
  forallb (is_delim d) gap' = true ->
  at_word d rest ->
  at_word d rest' ->
  gap ++ rest = gap' ++ rest' ->
  gap = gap' /\ rest = rest'.
Proof.
  intros Hg Hg' Hr Hr' E.
  destruct (run_while_app (is_delim d) gap rest Hg (at_word_head d _ Hr))
    as [E1 E2].
  destruct (run_while_app (is_delim d) gap' rest' Hg' (at_word_head d _ Hr'))
    as [E1' E2'].
  rewrite E in E1, E2. rewrite E1 in E1'. rewrite E2 in E2'. auto.
Qed.

Lemma all_delim_not_word (gap gap' rest : cstring) :
  forallb (is_delim d) gap = true ->
  forallb (is_delim d) gap' = true ->
  rest <> [] ->
  at_word d rest ->
  gap = gap' ++ rest ->
  False.
Proof.
  intros Hg Hg' Hne Hr E. subst gap. rewrite forallb_app in Hg.
  apply andb_prop in Hg as [_ Hg]. destruct rest as [|c rest]; [congruence|].
  cbn in Hg, Hr. apply andb_prop in Hg as [Hc _]. congruence.
Qed.

(** A line has one layout only. *)
Lemma nl_words_functional (rest : cstring) (w1 t1 : list cstring) :
  nl_words d rest w1 t1 ->
  forall w2 t2, nl_words d rest w2 t2 -> w1 = w2 /\ t1 = t2.
Proof.
  induction 1 as [| word gap Hne Hw Hg
                  | word gap rest w1 t1 Hne Hw Hgne Hg Hrne Hr H IH];
    intros w2 t2 H2.
  - now apply nl_words_nil_inv in H2 as [-> ->].
  - remember (word ++ gap) as s eqn:Es.
    destruct H2 as [| word' gap' Hne' Hw' Hg'
                    | word' gap' rest' w2 t2 Hne' Hw' Hgne' Hg' Hrne' Hr' H2].
    + destruct word; [congruence | discriminate].
    + destruct (word_gap_unique word word' gap gap' Hw Hw') as [-> _]; auto.
      * now apply (all_delim_at_gap gap []) in Hg; [rewrite app_nil_r in Hg|].
      * now apply (all_delim_at_gap gap' []) in Hg';
          [rewrite app_nil_r in Hg'|].
    + exfalso.
      destruct (word_gap_unique word word' gap (gap' ++ rest') Hw Hw')
        as [_ E]; auto.
      * now apply (all_delim_at_gap gap []) in Hg; [rewrite app_nil_r in Hg|].
      * destruct gap' as [|c g]; [congruence|].
        cbn in Hg' |- *. now apply andb_prop in Hg' as [Hc _].
      * exact (all_delim_not_word gap gap' rest' Hg Hg' Hrne' Hr' E).
  - remember (word ++ gap ++ rest) as s eqn:Es.
    destruct H2 as [| word' gap' Hne' Hw' Hg'
                    | word' gap' rest' w2 t2 Hne' Hw' Hgne' Hg' Hrne' Hr' H2].
    + destruct word; [congruence | discriminate].
    + exfalso.
      destruct (word_gap_unique word' word gap' (gap ++ rest) Hw' Hw)
        as [_ E]; auto.
      * now apply (all_delim_at_gap gap' []) in Hg';
          [rewrite app_nil_r in Hg'|].
      * destruct gap as [|c g]; [congruence|].
        cbn in Hg |- *. now apply andb_prop in Hg as [Hc _].
      * exact (all_delim_not_word gap' gap rest Hg' Hg Hrne Hr E).
    + destruct (word_gap_unique word word' (gap ++ rest) (gap' ++ rest') Hw Hw')
        as [-> E]; auto.
      * destruct gap as [|c g]; [congruence|].
        cbn in Hg |- *. now apply andb_prop in Hg as [Hc _].
      * destruct gap' as [|c g]; [congruence|].
        cbn in Hg' |- *. now apply andb_prop in Hg' as [Hc _].
      * destruct (gap_word_unique gap gap' rest rest' Hg Hg' Hr Hr' E)
          as [-> ->].
        destruct (IH w2 t2 H2) as [-> ->]. split; reflexivity.
Qed.

Lemma nl_layout_functional (s : cstring) (w1 t1 w2 t2 : list cstring) :
  nl_layout d s w1 t1 -> nl_layout d s w2 t2 -> w1 = w2 /\ t1 = t2.
Proof.
  intros H1 H2.
  destruct H1 as [gap rest w1 t1 Hg Hr H1].
  remember (gap ++ rest) as s eqn:Es.
  destruct H2 as [gap' rest' w2 t2 Hg' Hr' H2].
  destruct (gap_word_unique gap gap' rest rest' Hg Hg' Hr Hr' (eq_sym Es))
    as [E1 E2].
  subst gap' rest'.
  destruct (nl_words_functional rest w1 t1 H1 w2 t2 H2) as [-> ->].
  split; reflexivity.
Qed.

(** *** The loop of [tokenize_nl], token by token *)

Lemma tokenize_nl_loop_layout (fuel_in fuel : nat) :
  forall (s pre rest : cstring) (toks : list cstring),
    s = pre ++ rest ->
    size s < uint_max ->
    at_word d rest ->
    (List.length rest < fuel)%nat ->
    (List.length s < fuel_in)%nat ->
    exists toks' words,
      tokenize_nl_loop fuel_in fuel s d toks (pos_of pre rest)
        (find_first_of s d (pos_of pre rest)) = Ok (toks ++ toks') /\
      nl_words d rest words toks'.
Proof.
  induction fuel as [|fuel IH]; intros s pre rest toks Es Hu Hw Hf Hfi; [lia|].
  pose proof (uint_max_lt_npos _ Hu) as Hs.
  destruct rest as [|c r].
  - exists [], []. cbn [pos_of]. rewrite find_first_of_npos by assumption.
    cbn. rewrite app_nil_r. split; [reflexivity | apply nl_words_nil].
  - destruct (word_gap_split d (c :: r) Hw ltac:(discriminate))
      as (word & gap & rest' & Er & Hne & Hword & Hgap & Hg & Hw' & Hgne).
    rewrite Er in *. clear Er c r.
    destruct (pos_of_cons_lt s pre (word ++ gap ++ rest') Es Hs) as [Ep Hlt].
    { destruct word; [congruence | discriminate]. }
    rewrite (find_first_of_split d s pre word (gap ++ rest')) by assumption.
    cbn [tokenize_nl_loop].
    replace (negb (npos =? pos_of pre (word ++ gap ++ rest')))
      with true by (rewrite Ep; symmetry; apply negb_true_iff, Z.eqb_neq; lia).
    rewrite orb_true_r.
    rewrite (substr_split s pre word (gap ++ rest')); try assumption.
    2:{ destruct word; [congruence | discriminate]. }
    cbn [bind].
    assert (Es' : s = (pre ++ word) ++ gap ++ rest')
      by now rewrite <- app_assoc.
    rewrite (find_first_not_of_split d s (pre ++ word) gap rest');
      try assumption.
    assert (Hf' : (List.length rest' < fuel)%nat).
    { rewrite !length_app in Hf.
      destruct word; [congruence | cbn in Hf; lia]. }
    assert (Es'' : s = ((pre ++ word) ++ gap) ++ rest')
      by now rewrite <- !app_assoc.
    destruct rest' as [|c r].
    + cbn [pos_of]. rewrite Z.eqb_refl. cbn [negb andb].
      destruct fuel_in as [|fuel_in]; [lia|].
      rewrite push_newlines_false. cbn [bind].
      destruct (IH s ((pre ++ word) ++ gap) [] (toks ++ [word]))
        as (toks' & words & Hrun & Hl); try assumption.
      cbn [pos_of] in Hrun.
      apply nl_words_nil_inv in Hl as [-> ->].
      exists [word], [word]. split.
      * rewrite Hrun. now rewrite app_nil_r.
      * rewrite app_nil_r. now apply nl_words_last.
    + assert (Hnn : gap ++ c :: r <> []) by (destruct gap; discriminate).
      destruct (pos_of_cons_lt s (pre ++ word) (gap ++ c :: r) Es' Hs Hnn)
        as [Ep' Hlt'].
      destruct (pos_of_cons_lt s ((pre ++ word) ++ gap) (c :: r) Es'' Hs)
        as [Ep'' Hlt'']; [discriminate|].
      rewrite Ep'.
      replace (pos_of ((pre ++ word) ++ gap) (c :: r) =? npos) with false
        by (symmetry; apply Z.eqb_neq; lia).
      replace (size (pre ++ word) =? npos) with false
        by (symmetry; apply Z.eqb_neq; lia).
      cbn [negb andb].
      assert (Eb : size_sub (pos_of ((pre ++ word) ++ gap) (c :: r))
                     (size (pre ++ word)) = size gap).
      { rewrite Ep''. unfold size_sub. rewrite (size_app (pre ++ word) gap).
        replace (size (pre ++ word) + size gap - size (pre ++ word))
          with (size gap) by lia.
        pose proof (size_nonneg gap). pose proof (size_nonneg (pre ++ word)).
        rewrite (size_app (pre ++ word) gap) in Hlt''.
        apply Z.mod_small. unfold npos in Hlt''. lia. }
      rewrite Eb.
      assert (Hgs : size gap <= size s).
      { rewrite Es''. rewrite !size_app.
        pose proof (size_nonneg (pre ++ word)) as Hx.
        pose proof (size_nonneg (c :: r)).
        rewrite size_app in Hx. lia. }
      rewrite push_newlines_true;
        [| lia | lia | rewrite Z.sub_0_r; unfold size in *; lia].
      cbn [bind]. rewrite Z.sub_0_r. unfold size at 1. rewrite Nat2Z.id.
      destruct (IH s ((pre ++ word) ++ gap) (c :: r)
                  ((toks ++ [word]) ++ repeat [LF] (List.length gap)))
        as (toks' & words & Hrun & Hl); try assumption.
      exists (word :: repeat [LF] (List.length gap) ++ toks'), (word :: words).
      split.
      * rewrite Hrun. now rewrite <- !app_assoc.
      * apply nl_words_gap; try assumption; [|discriminate].
        apply Hgne. discriminate.
Qed.

Lemma tokenize_nl_layout (fuel : nat) (s : cstring) :
  size s < uint_max ->
  (List.length s < fuel)%nat ->
  exists toks words,
    tokenize_nl fuel s d = Ok toks /\ nl_layout d s words toks.
Proof.
  intros Hu Hf. pose proof (uint_max_lt_npos _ Hu) as Hs.
  destruct (leading_gap_split d s) as (gap & rest & Es & Hgap & Hw).
  unfold tokenize_nl.
  rewrite (find_first_not_of_start d s gap rest) by assumption.
  assert (Hfirst :
    (if negb (pos_of gap rest =? npos)
     then push_newlines fuel true (pos_of gap rest) 0 []
     else push_newlines fuel true (size s) 0 [])
    = Ok (repeat [LF] (List.length gap))).
  { destruct rest as [|c r].
    - cbn [pos_of]. rewrite Z.eqb_refl. cbn [negb].
      rewrite app_nil_r in Es. subst gap.
      rewrite push_newlines_true; try lia.
      + rewrite Z.sub_0_r. unfold size. now rewrite Nat2Z.id.
      + rewrite Z.sub_0_r. unfold size. lia.
    - destruct (pos_of_cons_lt s gap (c :: r) Es Hs) as [Ep Hlt];
        [discriminate|].
      rewrite Ep.
      replace (size gap =? npos) with false by (symmetry; apply Z.eqb_neq; lia).
      cbn [negb].
      assert (size gap <= size s).
      { rewrite Es, size_app. pose proof (size_nonneg (c :: r)). lia. }
      rewrite push_newlines_true; try lia.
      + rewrite Z.sub_0_r. unfold size. now rewrite Nat2Z.id.
      + rewrite Z.sub_0_r. unfold size in *. lia. }
  rewrite Hfirst. cbn [bind].
  destruct (tokenize_nl_loop_layout fuel fuel s gap rest
              (repeat [LF] (List.length gap)) Es Hu Hw)
    as (toks & words & Hrun & Hl).
  { rewrite Es, length_app in Hf. lia. }
  { exact Hf. }
  exists (repeat [LF] (List.length gap) ++ toks), words.
  split; [exact Hrun|]. rewrite Es. now apply nl_layout_intro.
Qed.

End NewlineLayout.

(** ** The quoted extractor *)


Lemma at_size (pre : cstring) (c : ascii) (rest : cstring) :
  at_ (pre ++ c :: rest) (size pre) = c.
Proof.
  unfold at_, size. rewrite Nat2Z.id.
  induction pre as [|x pre IH]; [reflexivity | exact IH].
Qed.

Lemma size_add_1 (pre : cstring) (c : ascii) :
  size (pre ++ [c]) < npos -> size_add (size pre) 1 = size (pre ++ [c]).
Proof.
  intros H. rewrite size_app in *. change (size [c]) with 1 in *.
  unfold size_add. pose proof (size_nonneg pre).
  apply Z.mod_small. unfold npos in H. lia.
Qed.

Lemma after_quote_length (body rest : cstring) :
  after_quote body = Some rest -> (List.length rest < List.length body)%nat.
Proof.
  revert rest.
  induction body as [body IH] using (well_founded_induction
    (Wf_nat.well_founded_ltof _ (@List.length ascii))).
  unfold Wf_nat.ltof in IH. intros rest.
  destruct body as [|c body]; cbn [after_quote List.length];
    [discriminate|].
  destruct (Ascii.eqb c QUOTE).
  - intros H. injection H as <-. lia.
  - destruct (Ascii.eqb c BACKSLASH).
    + destruct body as [|e body]; [discriminate|].
      intros H. apply IH in H; cbn [List.length] in *; lia.
    + intros H. apply IH in H; cbn [List.length] in *; lia.
Qed.

Lemma quoted_rest_length (body : cstring) :
  (List.length (quoted_rest body) <= List.length body)%nat.
Proof.
  unfold quoted_rest. destruct (after_quote body) eqn:E; cbn; [|lia].
  apply after_quote_length in E. lia.
Qed.

(** The scanning loop of the quoted branch, started behind [pre] on the text
    [body], stops behind the closing quote of [body] (or at the end of the
    line) with the token [unquote body token]. *)
Lemma scan_quoted_unquote (fuel : nat) :
  forall (str pre body token : cstring),
    str = pre ++ body ->
    size str < npos ->
    (List.length body < fuel)%nat ->
    exists pre',
      str = pre' ++ quoted_rest body /\
      scan_quoted fuel str (size pre) token =
      Ok (size pre', unquote body token).
Proof.
  induction fuel as [|fuel IH]; intros str pre body token Es Hs Hf; [lia|].
  cbn [scan_quoted].
  destruct body as [|c body].
  - exists pre. split; [exact Es|].
    rewrite app_nil_r in Es. subst str. now rewrite Z.ltb_irrefl.
  - assert (Hlt : (size pre <? size str) = true).
    { apply Z.ltb_lt. subst str. rewrite size_app, size_cons.
      pose proof (size_nonneg body). lia. }
    rewrite Hlt.
    assert (Eat : at_ str (size pre) = c) by (subst str; apply at_size).
    rewrite Eat.
    assert (Es1 : str = (pre ++ [c]) ++ body)
      by (rewrite <- app_assoc; exact Es).
    assert (Hs1 : size (pre ++ [c]) < npos).
    { rewrite Es1, size_app in Hs. pose proof (size_nonneg body). lia. }
    rewrite (size_add_1 pre c Hs1).
    unfold quoted_rest. cbn [unquote after_quote].
    destruct (Ascii.eqb c QUOTE).
    + exists (pre ++ [c]). split; [exact Es1 | reflexivity].
    + destruct (Ascii.eqb c BACKSLASH).
      * destruct body as [|e body].
        -- rewrite app_nil_r in Es1.
           replace (size (pre ++ [c]) <? size str) with false
             by (symmetry; apply Z.ltb_ge; rewrite <- Es1; lia).
           destruct (IH str (pre ++ [c]) [] token) as (pre' & E' & Hrun);
             [now rewrite app_nil_r | assumption | cbn in *; lia |].
           exists pre'. split; [exact E' | exact Hrun].
        -- assert (Hlt1 : (size (pre ++ [c]) <? size str) = true).
           { apply Z.ltb_lt. pose proof (f_equal size Es1) as Hsz.
             rewrite (size_app (pre ++ [c]) (e :: body)), size_cons in Hsz.
             pose proof (size_nonneg body). lia. }
           rewrite Hlt1.
           assert (Eat1 : at_ str (size (pre ++ [c])) = e)
             by (rewrite Es1; apply at_size).
           rewrite Eat1.
           assert (Es2 : str = ((pre ++ [c]) ++ [e]) ++ body)
             by (rewrite <- app_assoc; exact Es1).
           assert (Hs2 : size ((pre ++ [c]) ++ [e]) < npos).
           { rewrite Es2, size_app in Hs. pose proof (size_nonneg body). lia. }
           rewrite (size_add_1 (pre ++ [c]) e Hs2).
           apply (IH str ((pre ++ [c]) ++ [e]) body); try assumption.
           cbn in Hf. lia.
      * apply (IH str (pre ++ [c]) body); try assumption.
        cbn in Hf. lia.
Qed.

Section Extractor.

Variable d : cstring.

(** The extractor computes [extract_spec]: it neither throws nor runs out
    of fuel. *)
Lemma extract_token_quoted_spec (fuel : nat) (str : cstring) :
  size str < npos ->
  (List.length str < fuel)%nat ->
  extract_token_quoted fuel str d = Ok (extract_spec d str).
Proof.
  intros Hs Hf. unfold extract_token_quoted, extract_spec.
  pose proof (run_skip (is_delim d) str) as Es. symmetry in Es.
  pose proof (run_while_all (is_delim d) str) as Hgap.
  pose proof (skip_while_head (is_delim d) str) as Hw.
  pose proof (skip_while_length (is_delim d) str) as Hlen.
  rewrite (find_first_not_of_start d str _ _ Es Hs Hgap)
    by (destruct (skip_while (is_delim d) str); [exact I | exact Hw]).
  set (gap := run_while (is_delim d) str) in *.
  destruct (skip_while (is_delim d) str) as [|c r] eqn:Er.
  - reflexivity.
  - destruct (pos_of_cons_lt str gap (c :: r) Es Hs) as [Ep Hlt];
      [discriminate|].
    rewrite Ep.
    replace (size gap =? npos) with false by (symmetry; apply Z.eqb_neq; lia).
    rewrite Es at 1. rewrite substr_suffix by (rewrite <- Es; exact Hs).
    cbn [bind]. change (at_ (c :: r) 0) with c.
    assert (Hs' : size (c :: r) < npos).
    { rewrite Es, size_app in Hs. pose proof (size_nonneg gap). lia. }
    destruct (Ascii.eqb c HASH); [reflexivity|].
    destruct (Ascii.eqb c QUOTE).
    + destruct (scan_quoted_unquote fuel (c :: r) [c] r [] eq_refl Hs')
        as (pre' & E' & Hrun).
      { cbn in Hlen. lia. }
      change (size [c]) with 1 in Hrun. rewrite Hrun. cbn [bind].
      rewrite E' at 1. rewrite substr_suffix by (rewrite <- E'; exact Hs').
      reflexivity.
    + pose proof (run_skip (not_delim d) (c :: r)) as Ew. symmetry in Ew.
      pose proof (run_while_all (not_delim d) (c :: r)) as Hword.
      pose proof (skip_while_head (not_delim d) (c :: r)) as Hg.
      set (word := run_while (not_delim d) (c :: r)) in *.
      set (rest := skip_while (not_delim d) (c :: r)) in *.
      assert (Hg' : at_gap d rest).
      { destruct rest; [exact I | now apply not_delim_false]. }
      assert (Hne : word <> []).
      { unfold word. rewrite run_while_cons_true; [discriminate|].
        now apply not_delim_true. }
      assert (Eend : find_first_of (c :: r) d 0 = pos_of word rest).
      { pose proof (find_first_of_split d (c :: r) [] word rest Ew Hs' Hword
                      Hg') as H.
        rewrite <- Ew in H. exact H. }
      rewrite Eend.
      rewrite Ew at 1. rewrite substr_prefix by (rewrite <- Ew; exact Hs').
      cbn [bind].
      destruct rest as [|x rest'] eqn:Erest.
      * cbn [pos_of]. now rewrite Z.eqb_refl.
      * destruct (pos_of_cons_lt (c :: r) word (x :: rest') Ew Hs')
          as [Ep' Hlt']; [discriminate|].
        rewrite Ep'.
        replace (size word =? npos) with false
          by (symmetry; apply Z.eqb_neq; lia).
        rewrite Ew at 1. rewrite substr_suffix by (rewrite <- Ew; exact Hs').
        reflexivity.
Qed.

(** The cursor that [extract_spec] leaves is shorter than a cursor that is
    not empty. *)
Lemma extract_spec_shrinks (str : cstring) :
  str <> [] ->
  (List.length (snd (extract_spec d str)) < List.length str)%nat.
Proof.
  intros Hne. unfold extract_spec.
  pose proof (skip_while_length (is_delim d) str) as Hlen.
  pose proof (skip_while_head (is_delim d) str) as Hw.
  assert (0 < List.length str)%nat by (destruct str; [congruence | cbn; lia]).
  destruct (skip_while (is_delim d) str) as [|c r]; [exact H|].
  destruct (Ascii.eqb c HASH); [exact H|].
  destruct (Ascii.eqb c QUOTE).
  - cbn [snd]. pose proof (quoted_rest_length r). cbn in Hlen. lia.
  - cbn [snd]. rewrite skip_while_cons_true by now apply not_delim_true.
    pose proof (skip_while_length (not_delim d) r). cbn in Hlen. lia.
Qed.

(** The loop of [tokenize_quoted] leaves with a result. *)
Lemma tokenize_quoted_loop_returns (fuel_in fuel : nat) :
  forall (remaining : cstring) (toks : list cstring),
    size remaining < npos ->
    (List.length remaining < fuel)%nat ->
    (List.length remaining < fuel_in)%nat ->
    exists toks',
      tokenize_quoted_loop fuel_in fuel d toks remaining = Ok toks'.
Proof.
  induction fuel as [|fuel IH]; intros remaining toks Hs Hf Hfi; [lia|].
  cbn [tokenize_quoted_loop].
  destruct remaining as [|c r]; [now exists toks|].
  rewrite extract_token_quoted_spec by assumption. cbn [bind].
  pose proof (extract_spec_shrinks (c :: r) ltac:(discriminate)) as Hsh.
  destruct (extract_spec d (c :: r)) as [tok rest]. cbn [snd] in Hsh.
  assert (size rest < npos) by (unfold size in *; lia).
  destruct tok as [t|]; apply IH; (assumption || lia).
Qed.

(** When one call of the extractor uses up the line, the tokenizer returns
    what that call produced. *)
Lemma tokenize_quoted_one_call (fuel : nat) (str : cstring) (tok : option cstring) :
  extract_token_quoted fuel str d = Ok (tok, []) ->
  (List.length str < fuel)%nat ->
  tokenize_quoted fuel str d =
  Ok (match tok with Some t => [t] | None => [] end).
Proof.
  intros He Hf. unfold tokenize_quoted.
  destruct str as [|c r].
  - destruct fuel as [|fuel]; [cbn in Hf; lia|].
    cbn in He. injection He as <-. reflexivity.
  - destruct fuel as [|[|fuel]]; [cbn in Hf; lia | cbn in Hf; lia |].
    cbn [tokenize_quoted_loop]. rewrite He. cbn [bind].
    destruct tok; reflexivity.
Qed.

End Extractor.

Section ExtractorCases.

Variable d : cstring.

Lemma skip_gap (gap rest : cstring) (c : ascii) :
  forallb (is_delim d) gap = true ->
  is_delim d c = false ->
  skip_while (is_delim d) (gap ++ c :: rest) = c :: rest.
Proof.
  intros Hg Hc.
  now destruct (run_while_app (is_delim d) gap (c :: rest) Hg Hc).
Qed.

Lemma extract_spec_quoted (gap body : cstring) :
  forallb (is_delim d) gap = true ->
  is_delim d QUOTE = false ->
  extract_spec d (gap ++ QUOTE :: body) =
  (Some (unquote body []), quoted_rest body).
Proof.
  intros Hg Hq. unfold extract_spec. now rewrite skip_gap.
Qed.

Lemma extract_spec_none (str : cstring) :
  fst (extract_spec d str) = None <->
  skip_while (is_delim d) str = [] \/
  exists r, skip_while (is_delim d) str = HASH :: r.
Proof.
  unfold extract_spec.
  destruct (skip_while (is_delim d) str) as [|c r]; [cbn; tauto|].
  destruct (Ascii.eqb c HASH) eqn:Eh.
  - apply Ascii.eqb_eq in Eh. subst c. cbn. split; [|reflexivity].
    intros _. right. now exists r.
  - apply Ascii.eqb_neq in Eh.
    split.
    + destruct (Ascii.eqb c QUOTE); discriminate.
    + intros [H | [r' H]]; [discriminate | congruence].
Qed.

Lemma extract_spec_none_cursor (str : cstring) :
  fst (extract_spec d str) = None -> snd (extract_spec d str) = [].
Proof.
  unfold extract_spec.
  destruct (skip_while (is_delim d) str) as [|c r]; [reflexivity|].
  destruct (Ascii.eqb c HASH); [reflexivity|].
  destruct (Ascii.eqb c QUOTE); discriminate.
Qed.

Lemma skip_while_all (s : cstring) :
  forallb (is_delim d) s = true -> skip_while (is_delim d) s = [].
Proof.
  induction s as [|c s IH]; cbn; [reflexivity|].
  intros H. apply andb_prop in H as [-> H]. auto.
Qed.

Lemma unquote_plain (body token : cstring) :
  forallb (fun c => negb (Ascii.eqb c QUOTE) && negb (Ascii.eqb c BACKSLASH))
    body = true ->
  unquote body token = token ++ body.
Proof.
  revert token. induction body as [|c body IH]; intros token H.
  - cbn. now rewrite app_nil_r.
  - cbn [forallb] in H. apply andb_prop in H as [Hc H].
    apply andb_prop in Hc as [Hq Hb].
    apply negb_true_iff in Hq, Hb.
    cbn [unquote]. rewrite Hq, Hb. rewrite IH by assumption.
    now rewrite <- app_assoc.
Qed.

End ExtractorCases.

Section QuotedLoop.

Variable d : cstring.

(** With enough of it, the fuel does not matter to the loop of
    [tokenize_quoted]. *)
Lemma tokenize_quoted_loop_fuel (f1 : nat) :
  forall (f2 fi1 fi2 : nat) (r : cstring) (toks : list cstring),
    size r < npos ->
    (List.length r < f1)%nat ->
    (List.length r < f2)%nat ->
    (List.length r < fi1)%nat ->
    (List.length r < fi2)%nat ->
    tokenize_quoted_loop fi1 f1 d toks r = tokenize_quoted_loop fi2 f2 d toks r.
Proof.
  induction f1 as [|f1 IH]; intros f2 fi1 fi2 r toks Hs H1 H2 H3 H4; [lia|].
  destruct f2 as [|f2]; [lia|].
  cbn [tokenize_quoted_loop].
  destruct r as [|c r]; [reflexivity|].
  rewrite !extract_token_quoted_spec by assumption. cbn [bind].
  pose proof (extract_spec_shrinks d (c :: r) ltac:(discriminate)) as Hsh.
  destruct (extract_spec d (c :: r)) as [tok rest]. cbn [snd] in Hsh.
  assert (size rest < npos) by (unfold size in *; lia).
  destruct tok as [t|]; apply IH; (assumption || lia).
Qed.

(** The tokens found so far stay in front of the tokens found later. *)
Lemma tokenize_quoted_loop_acc (f : nat) :
  forall (fi : nat) (r : cstring) (toks : list cstring),
    tokenize_quoted_loop fi f d toks r =
    bind (tokenize_quoted_loop fi f d [] r) (fun t => Ok (toks ++ t)).
Proof.
  induction f as [|f IH]; intros fi r toks; [reflexivity|].
  cbn [tokenize_quoted_loop].
  destruct r as [|c r]; [cbn; now rewrite app_nil_r|].
  destruct (extract_token_quoted fi (c :: r) d) as [[tok rest]| |];
    cbn [bind]; try reflexivity.
  destruct tok as [t|]; [|apply IH].
  rewrite (IH fi rest (toks ++ [t])), (IH fi rest ([] ++ [t])).
  destruct (tokenize_quoted_loop fi f d [] rest); cbn [bind];
    try reflexivity.
  now rewrite <- app_assoc.
Qed.

(** A line whose first call of the extractor gives a token: the tokenizer
    returns that token and then the tokens of the cursor the call left. *)
Lemma tokenize_quoted_first_token (fuel : nat) (str rest t : cstring) :
  size str < npos ->
  (List.length str < fuel)%nat ->
  str <> [] ->
  extract_spec d str = (Some t, rest) ->
  exists toks,
    tokenize_quoted fuel rest d = Ok toks /\
    tokenize_quoted fuel str d = Ok (t :: toks).
Proof.
  intros Hs Hf Hne He.
  pose proof (extract_spec_shrinks d str Hne) as Hsh.
  rewrite He in Hsh. cbn [snd] in Hsh.
  assert (Hsr : size rest < npos) by (unfold size in *; lia).
  destruct (tokenize_quoted_loop_returns d fuel fuel rest [] Hsr)
    as (toks & Hrun); [lia | lia |].
  exists toks. split; [exact Hrun|].
  unfold tokenize_quoted in *.
  destruct fuel as [|fuel]; [lia|].
  destruct str as [|c r]; [congruence|].
  cbn [tokenize_quoted_loop].
  rewrite extract_token_quoted_spec by assumption.
  rewrite He. cbn [bind].
  rewrite tokenize_quoted_loop_acc.
  rewrite (tokenize_quoted_loop_fuel fuel (S fuel) (S fuel) (S fuel) rest [])
    by (assumption || (cbn [List.length] in *; lia)).
  rewrite Hrun. reflexivity.
Qed.

End QuotedLoop.

(** * The examples of the source and of the specification *)

Example tokenize_quoted_four_elements :
  tokenize_quoted 32
    (lit "foo bar " ++ QUOTE :: lit "foo bar" ++ QUOTE :: lit " "
       ++ QUOTE :: lit "a test" ++ [QUOTE])
    (lit " ")
  = Ok [lit "foo"; lit "bar"; lit "foo bar"; lit "a test"].
Proof. reflexivity. Qed.

Example tokenize_quoted_comment :
  tokenize_quoted 32
    (lit "yes great " ++ QUOTE :: lit "x\ny" ++ QUOTE :: lit " # comment")
    (lit " ")
  = Ok [lit "yes"; lit "great"; lit "x" ++ LF :: lit "y"].
Proof. reflexivity. Qed.

Example tokenize_spaced_runs :
  tokenize_spaced 16 (lit "  a   b ") (lit " ")
  = Ok [lit "  "; lit "a"; lit "   "; lit "b"; lit " "].
Proof. reflexivity. Qed.

Example tokenize_nl_runs :
  tokenize_nl 16 (lit "  a   b") (lit " ")
  = Ok [[LF]; [LF]; lit "a"; [LF]; [LF]; [LF]; lit "b"].
Proof. reflexivity. Qed.

(** * Properties stated by the specification *)

(** ** Spaced tokenizer *)

(** C1. For every line [s] and delimiter set [d], [tokenize_spaced] returns
    a token sequence, and concatenating its tokens in order gives [s] back:
    the split is lossless. *)
Theorem tokenize_spaced_lossless (d s : cstring) (fuel : nat) :
  size s < npos ->
  (List.length s < fuel)%nat ->
  exists toks,
    tokenize_spaced fuel s d = Ok toks /\ List.concat toks = s.
Proof. intros Hs Hf. now apply tokenize_spaced_concat. Qed.

Lemma tokenize_spaced_lossless_witness :
  size (lit " ab  c ") < npos /\
  (List.length (lit " ab  c ") < 8)%nat /\
  exists toks,
    tokenize_spaced 8 (lit " ab  c ") (lit " ") = Ok toks /\
    List.concat toks = lit " ab  c ".
Proof.
  split; [reflexivity|]. split; [cbn; lia|].
  apply (tokenize_spaced_lossless (lit " ") (lit " ab  c ") 8);
    [reflexivity | cbn; lia].
Defined.

(** C9. On the empty line [tokenize_spaced] returns one token, the empty
    string, whatever the delimiters: [find_first_not_of] fails, so the
    leading-run branch pushes [substr(0, npos)] of the empty line. *)
Theorem tokenize_spaced_empty_line (d : cstring) (fuel : nat) :
  tokenize_spaced (S fuel) [] d = Ok [[]].
Proof. reflexivity. Qed.

(** ** Plain tokenizer *)

(** C7. [tokenize] returns the maximal runs of characters that are not
    delimiters ([splits]): no token is empty or holds a delimiter, the
    characters that are not delimiters (a quote is one of them, unless it
    is a delimiter) are all kept in order, and the result is empty exactly
    when the line has delimiters only (the empty line too). The
    specification's example and a line with quotes are evaluated. *)
Theorem tokenize_maximal_runs :
  (forall (d s : cstring) (fuel : nat),
      size s < npos ->
      (List.length s < fuel)%nat ->
      exists toks,
        tokenize fuel s d = Ok toks /\
        splits d s toks /\
        Forall (fun t => t <> [] /\ forallb (not_delim d) t = true) toks /\
        List.concat toks = filter (not_delim d) s /\
        (toks = [] <-> forallb (is_delim d) s = true)) /\
  (forall (d : cstring) (fuel : nat), tokenize (S fuel) [] d = Ok []) /\
  (forall fuel : nat,
      (8 < fuel)%nat ->
      tokenize fuel (lit "  a   b ") (lit " ") = Ok [lit "a"; lit "b"]) /\
  (forall fuel : nat,
      (5 < fuel)%nat ->
      tokenize fuel (QUOTE :: lit "a b" ++ [QUOTE]) (lit " ") =
      Ok [QUOTE :: lit "a"; lit "b" ++ [QUOTE]]).
Proof.
  assert (General : forall (d s : cstring) (fuel : nat),
      size s < npos ->
      (List.length s < fuel)%nat ->
      exists toks, tokenize fuel s d = Ok toks /\ splits d s toks).
  { intros d s fuel Hs Hf. now apply tokenize_splits. }
  split; [|split; [|split]].
  - intros d s fuel Hs Hf.
    destruct (General d s fuel Hs Hf) as (toks & Hrun & Hsp).
    exists toks. repeat split.
    + exact Hrun.
    + exact Hsp.
    + exact (splits_tokens d s toks Hsp).
    + exact (splits_concat d s toks Hsp).
    + apply (splits_nil_iff d s toks Hsp).
    + apply (splits_nil_iff d s toks Hsp).
  - reflexivity.
  - intros fuel Hf.
    destruct (General (lit " ") (lit "  a   b ") fuel) as (toks & Hrun & Hsp);
      [reflexivity | cbn; lia |].
    rewrite Hrun. f_equal.
    apply (splits_functional (lit " ") (lit "  a   b ")); [exact Hsp|].
    apply (splits_cons (lit " ") (lit "  ") (lit "a") (lit "   b "));
      try reflexivity; [discriminate|].
    apply (splits_cons (lit " ") (lit "   ") (lit "b") (lit " "));
      try reflexivity; [discriminate|].
    now apply splits_nil.
  - intros fuel Hf.
    destruct (General (lit " ") (QUOTE :: lit "a b" ++ [QUOTE]) fuel)
      as (toks & Hrun & Hsp); [reflexivity | cbn; lia |].
    rewrite Hrun. f_equal.
    apply (splits_functional (lit " ") (QUOTE :: lit "a b" ++ [QUOTE]));
      [exact Hsp|].
    apply (splits_cons (lit " ") [] (QUOTE :: lit "a") (lit " b" ++ [QUOTE]));
      try reflexivity; [discriminate|].
    apply (splits_cons (lit " ") (lit " ") (lit "b" ++ [QUOTE]) []);
      try reflexivity; [discriminate|].
    now apply splits_nil.
Qed.

Lemma tokenize_maximal_runs_witness :
  exists toks,
    tokenize 6 (lit " a,b ") (lit " ,") = Ok toks /\
    splits (lit " ,") (lit " a,b ") toks /\
    Forall (fun t => t <> [] /\ forallb (not_delim (lit " ,")) t = true) toks /\
    List.concat toks = filter (not_delim (lit " ,")) (lit " a,b ") /\
    (toks = [] <-> forallb (is_delim (lit " ,")) (lit " a,b ") = true).
Proof.
  apply (proj1 tokenize_maximal_runs (lit " ,") (lit " a,b ") 6%nat);
    [reflexivity | cbn; lia].
Defined.

(** C8, as the code has it. A token that is not empty and holds no
    delimiter and no quote is tokenized again into itself alone. (The
    empty token, which holds neither, is tokenized into no token at all.) *)
Theorem tokenize_idempotent_on_token (d t : cstring) (fuel : nat) :
  t <> [] ->
  forallb (not_delim d) t = true ->
  ~ In QUOTE t ->
  size t < npos ->
  (List.length t < fuel)%nat ->
  tokenize fuel t d = Ok [t].
Proof.
  intros Hne Ht _ Hs Hf.
  destruct (tokenize_splits d fuel t Hs Hf) as (toks & Hrun & Hsp).
  rewrite Hrun. f_equal.
  apply (splits_functional d t); [exact Hsp|].
  pose proof (splits_cons d [] t [] [] eq_refl Hne Ht I
                (splits_nil d [] eq_refl)) as H.
  cbn [app] in H. now rewrite app_nil_r in H.
Qed.

Lemma tokenize_idempotent_on_token_witness :
  tokenize 4 (lit "foo") (lit " ") = Ok [lit "foo"].
Proof.
  apply (tokenize_idempotent_on_token (lit " ") (lit "foo") 4).
  - discriminate.
  - reflexivity.
  - cbn. intros [H | [H | [H | []]]]; discriminate.
  - reflexivity.
  - cbn; lia.
Defined.

(** C8, as stated, fails on the empty token: it holds no delimiter and no
    quote, and [tokenize] returns no token for it, not the token itself. *)
Lemma tokenize_empty_token_counterexample :
  forallb (not_delim (lit " ")) [] = true /\
  ~ In QUOTE [] /\
  tokenize 1 [] (lit " ") = Ok [] /\
  tokenize 1 [] (lit " ") <> Ok [[]].
Proof.
  split; [reflexivity|]. split; [intros []|]. split; [reflexivity|].
  discriminate.
Qed.

(** ** Newline-expansion tokenizer *)

(** C2, as the code has it. On a line shorter than [2^32]
    characters, [tokenize_nl] returns the tokens of [tokenize], in their
    order, with line feed tokens put in ([nl_layout], which a line has
    only one of): in front of the first word one for each leading
    delimiter, between two words one for each delimiter between them, and
    none behind the last word; a line of delimiters only gives one for each
    of its characters. So the tokens that are a single line feed are one
    for every delimiter character that has a character which is not a
    delimiter somewhere behind it (for every character of a line of
    delimiters only), and the words that are a line feed themselves. Where
    every line feed of the line is a delimiter, the line feed tokens are
    counted by that number alone. *)
Theorem tokenize_nl_newline_tokens (d s : cstring) (fuel : nat) :
  size s < uint_max ->
  (List.length s < fuel)%nat ->
  exists toks words,
    tokenize_nl fuel s d = Ok toks /\
    tokenize fuel s d = Ok words /\
    nl_layout d s words toks /\
    (forall words' toks',
        nl_layout d s words' toks' -> words' = words /\ toks' = toks) /\
    count_newline_tokens toks =
    ((if existsb (not_delim d) s then count_inner_delims d s
      else count_delims d s) + count_newline_tokens words)%nat /\
    ((forall c, In c s -> c = LF -> is_delim d c = true) ->
     count_newline_tokens toks =
     if existsb (not_delim d) s then count_inner_delims d s
     else count_delims d s).
Proof.
  intros Hu Hf.
  destruct (tokenize_nl_layout d fuel s Hu Hf) as (toks & words & Hrun & Hl).
  destruct (tokenize_nl_count d fuel s Hu Hf)
    as (toks2 & words2 & Hrun2 & Hsp2 & Hc).
  rewrite Hrun in Hrun2. injection Hrun2 as <-.
  pose proof (nl_layout_splits d s words toks Hl) as Hsp.
  assert (words2 = words) by (apply (splits_functional d s); assumption).
  subst words2.
  destruct (tokenize_splits d fuel s (uint_max_lt_npos _ Hu) Hf)
    as (words' & Hrun' & Hsp').
  assert (words' = words) by (apply (splits_functional d s); assumption).
  subst words'.
  exists toks, words. repeat split; try assumption.
  - now destruct (nl_layout_functional d s words' toks' words toks H Hl).
  - now destruct (nl_layout_functional d s words' toks' words toks H Hl).
  - intros Hlf. rewrite Hc.
    rewrite (splits_no_newline_token d s words Hsp Hlf). lia.
Qed.

Lemma tokenize_nl_newline_tokens_witness :
  exists toks words,
    tokenize_nl 9 (lit "  a   b ") (lit " ") = Ok toks /\
    tokenize 9 (lit "  a   b ") (lit " ") = Ok words /\
    nl_layout (lit " ") (lit "  a   b ") words toks /\
    (forall words' toks',
        nl_layout (lit " ") (lit "  a   b ") words' toks' ->
        words' = words /\ toks' = toks) /\
    count_newline_tokens toks = (5 + count_newline_tokens words)%nat /\
    ((forall c, In c (lit "  a   b ") -> c = LF ->
                is_delim (lit " ") c = true) ->
     count_newline_tokens toks = 5%nat).
Proof.
  apply (tokenize_nl_newline_tokens (lit " ") (lit "  a   b ") 9);
    [reflexivity | cbn; lia].
Defined.

(** C2, as stated, fails in two ways. The trailing delimiter of ["a "]
    gives no token. And a word that is a line feed is returned as a token
    that is a single line feed, where the line has no delimiter at all. *)
Lemma tokenize_nl_counterexample :
  (tokenize_nl 3 (lit "a ") (lit " ") = Ok [lit "a"] /\
   count_newline_tokens [lit "a"] = 0%nat /\
   count_delims (lit " ") (lit "a ") = 1%nat) /\
  (tokenize_nl 2 [LF] (lit " ") = Ok [[LF]] /\
   count_newline_tokens [[LF]] = 1%nat /\
   count_delims (lit " ") [LF] = 0%nat).
Proof. repeat split. Qed.

(** ** Quoted extractor and tokenizer *)

(** C3. A call of [extract_token_quoted] on a cursor that is not empty
    returns, and leaves a cursor that is strictly shorter; and
    [tokenize_quoted] returns a token sequence for every line and every
    delimiter set. *)
Theorem extract_token_quoted_progress (d str : cstring) (fuel : nat) :
  size str < npos ->
  (List.length str < fuel)%nat ->
  (str <> [] ->
   exists tok str',
     extract_token_quoted fuel str d = Ok (tok, str') /\
     (List.length str' < List.length str)%nat) /\
  exists toks, tokenize_quoted fuel str d = Ok toks.
Proof.
  intros Hs Hf. split.
  - intros Hne.
    exists (fst (extract_spec d str)), (snd (extract_spec d str)). split.
    + rewrite extract_token_quoted_spec by assumption.
      now destruct (extract_spec d str).
    + now apply extract_spec_shrinks.
  - unfold tokenize_quoted. now apply tokenize_quoted_loop_returns.
Qed.

Lemma extract_token_quoted_progress_witness :
  (QUOTE :: lit "a b" ++ QUOTE :: lit " c" <> [] ->
   exists tok str',
     extract_token_quoted 8 (QUOTE :: lit "a b" ++ QUOTE :: lit " c") (lit " ")
     = Ok (tok, str') /\
     (List.length str' <
      List.length (QUOTE :: lit "a b" ++ QUOTE :: lit " c"))%nat) /\
  exists toks,
    tokenize_quoted 8 (QUOTE :: lit "a b" ++ QUOTE :: lit " c") (lit " ")
    = Ok toks.
Proof.
  apply (extract_token_quoted_progress (lit " ")
           (QUOTE :: lit "a b" ++ QUOTE :: lit " c") 8);
    [reflexivity | cbn; lia].
Defined.

(** C4, as the code has it. [extract_token_quoted] returns no token exactly
    when, behind its leading delimiters, the cursor is exhausted or starts
    with ['#']; the cursor is then empty, and [tokenize_quoted] of that line
    returns no token. So it does for the empty line, for a line of
    delimiters only, and for a line that begins with ['#'] where ['#'] is
    not a delimiter. *)
Theorem extract_token_quoted_no_token (d str : cstring) (fuel : nat) :
  size str < npos ->
  (List.length str < fuel)%nat ->
  exists tok str',
    extract_token_quoted fuel str d = Ok (tok, str') /\
    (tok = None <->
     skip_while (is_delim d) str = [] \/
     exists r, skip_while (is_delim d) str = HASH :: r) /\
    (tok = None -> str' = [] /\ tokenize_quoted fuel str d = Ok []) /\
    (str = [] -> tokenize_quoted fuel str d = Ok []) /\
    (forallb (is_delim d) str = true -> tokenize_quoted fuel str d = Ok []) /\
    (forall r, str = HASH :: r -> is_delim d HASH = false ->
               tokenize_quoted fuel str d = Ok []).
Proof.
  intros Hs Hf.
  pose proof (extract_token_quoted_spec d fuel str Hs Hf) as He.
  pose proof (extract_spec_none d str) as Hiff.
  pose proof (extract_spec_none_cursor d str) as Hcur.
  destruct (extract_spec d str) as [tok str']. cbn [fst snd] in *.
  assert (Hnone : tok = None -> str' = [] /\ tokenize_quoted fuel str d = Ok []).
  { intros Ht. specialize (Hcur Ht). subst tok str'. split; [reflexivity|].
    exact (tokenize_quoted_one_call d fuel str None He Hf). }
  exists tok, str'. repeat split.
  - exact He.
  - apply Hiff.
  - apply Hiff.
  - now apply Hnone.
  - now apply Hnone.
  - intros ->. apply Hnone, Hiff. now left.
  - intros Hall. apply Hnone, Hiff. left. now apply skip_while_all.
  - intros r -> Hh. apply Hnone, Hiff. right. exists r.
    cbn [skip_while]. now rewrite Hh.
Qed.

Lemma extract_token_quoted_no_token_witness :
  exists tok str',
    extract_token_quoted 12 (lit "  #comment") (lit " ") = Ok (tok, str') /\
    (tok = None <->
     skip_while (is_delim (lit " ")) (lit "  #comment") = [] \/
     exists r, skip_while (is_delim (lit " ")) (lit "  #comment") = HASH :: r) /\
    (tok = None ->
     str' = [] /\ tokenize_quoted 12 (lit "  #comment") (lit " ") = Ok []) /\
    (lit "  #comment" = [] ->
     tokenize_quoted 12 (lit "  #comment") (lit " ") = Ok []) /\
    (forallb (is_delim (lit " ")) (lit "  #comment") = true ->
     tokenize_quoted 12 (lit "  #comment") (lit " ") = Ok []) /\
    (forall r, lit "  #comment" = HASH :: r -> is_delim (lit " ") HASH = false ->
               tokenize_quoted 12 (lit "  #comment") (lit " ") = Ok []).
Proof.
  apply (extract_token_quoted_no_token (lit " ") (lit "  #comment") 12);
    [reflexivity | cbn; lia].
Defined.

(** C4, as stated, fails where ['#'] is a delimiter: the line ["#a"] begins
    with ['#'], which is skipped as a delimiter, and the token ["a"] is
    returned. *)
Lemma tokenize_quoted_hash_delimiter_counterexample :
  extract_token_quoted 3 (lit "#a") (lit "#") = Ok (Some (lit "a"), []) /\
  tokenize_quoted 3 (lit "#a") (lit "#") = Ok [lit "a"] /\
  tokenize_quoted 3 (lit "#a") (lit "#") <> Ok [].
Proof. repeat split. discriminate. Qed.

(** C5. [append_escapes] appends to the accumulator, for every character:
    a line feed for [n], a carriage return for [r], a tab for [t], a double
    quote for a double quote, a backslash for a backslash, the two
    characters backslash and backtick for a backtick, and the character
    itself for any other character. So a quoted backslash and backtick are
    decoded to backslash and backtick. *)
Theorem append_escapes_mapping (str : cstring) :
  append_escapes str "n" = str ++ [ascii_of_nat 10] /\
  append_escapes str "r" = str ++ [ascii_of_nat 13] /\
  append_escapes str "t" = str ++ [ascii_of_nat 9] /\
  append_escapes str QUOTE = str ++ [QUOTE] /\
  append_escapes str BACKSLASH = str ++ [BACKSLASH] /\
  append_escapes str BACKTICK = str ++ [BACKSLASH; BACKTICK] /\
  (forall c : ascii,
      c <> "n"%char -> c <> "r"%char -> c <> "t"%char ->
      c <> QUOTE -> c <> BACKSLASH -> c <> BACKTICK ->
      append_escapes str c = str ++ [c]) /\
  (forall c : ascii,
      exists e, e <> [] /\ append_escapes str c = str ++ e) /\
  (forall fuel : nat,
      (4 < fuel)%nat ->
      tokenize_quoted fuel [QUOTE; BACKSLASH; BACKTICK; QUOTE] (lit " ") =
      Ok [[BACKSLASH; BACKTICK]]).
Proof.
  repeat split.
  - intros c Hn Hr Ht Hq Hb Hk. unfold append_escapes.
    apply Ascii.eqb_neq in Hn, Hr, Ht, Hq, Hb, Hk.
    now rewrite Hn, Hr, Ht, Hq, Hb, Hk.
  - intros c. unfold append_escapes.
    repeat match goal with
           | |- context [if ?b then _ else _] => destruct b
           end;
      eexists; (split; [|reflexivity]); discriminate.
  - intros fuel Hf.
    apply (tokenize_quoted_one_call (lit " ") fuel
             [QUOTE; BACKSLASH; BACKTICK; QUOTE] (Some [BACKSLASH; BACKTICK]));
      [|cbn; lia].
    rewrite extract_token_quoted_spec; [reflexivity | reflexivity | cbn; lia].
Qed.

Lemma append_escapes_mapping_witness :
  append_escapes (lit "ab") "x" = lit "abx".
Proof.
  apply (proj1 (proj2 (proj2 (proj2 (proj2 (proj2 (proj2
           (append_escapes_mapping (lit "ab")))))))) "x"%char);
    discriminate.
Defined.

(** C6. A quoted token whose closing quote is missing is extracted without
    an error: the token is the text behind the opening quote with its
    escapes resolved (the text itself where it has no backslash), the
    cursor is left empty, and [tokenize_quoted] returns that one token. The
    line of a quote and [abc] gives the token [abc]. *)
Theorem extract_token_quoted_unterminated :
  (forall (d gap body : cstring) (fuel : nat),
      forallb (is_delim d) gap = true ->
      is_delim d QUOTE = false ->
      after_quote body = None ->
      size (gap ++ QUOTE :: body) < npos ->
      (List.length (gap ++ QUOTE :: body) < fuel)%nat ->
      extract_token_quoted fuel (gap ++ QUOTE :: body) d =
      Ok (Some (unquote body []), []) /\
      tokenize_quoted fuel (gap ++ QUOTE :: body) d = Ok [unquote body []] /\
      (forallb (fun c => negb (Ascii.eqb c QUOTE) &&
                         negb (Ascii.eqb c BACKSLASH)) body = true ->
       unquote body [] = body)) /\
  (forall fuel : nat,
      (4 < fuel)%nat ->
      tokenize_quoted fuel (QUOTE :: lit "abc") (lit " ") = Ok [lit "abc"]).
Proof.
  assert (General : forall (d gap body : cstring) (fuel : nat),
      forallb (is_delim d) gap = true ->
      is_delim d QUOTE = false ->
      after_quote body = None ->
      size (gap ++ QUOTE :: body) < npos ->
      (List.length (gap ++ QUOTE :: body) < fuel)%nat ->
      extract_token_quoted fuel (gap ++ QUOTE :: body) d =
      Ok (Some (unquote body []), []) /\
      tokenize_quoted fuel (gap ++ QUOTE :: body) d = Ok [unquote body []]).
  { intros d gap body fuel Hg Hq Hb Hs Hf.
    assert (He : extract_token_quoted fuel (gap ++ QUOTE :: body) d =
                 Ok (Some (unquote body []), [])).
    { rewrite extract_token_quoted_spec by assumption.
      rewrite extract_spec_quoted by assumption.
      unfold quoted_rest. now rewrite Hb. }
    split; [exact He|].
    exact (tokenize_quoted_one_call d fuel _ _ He Hf). }
  split.
  - intros d gap body fuel Hg Hq Hb Hs Hf.
    destruct (General d gap body fuel Hg Hq Hb Hs Hf) as [He Ht].
    repeat split; try assumption.
    intros Hplain. now rewrite unquote_plain.
  - intros fuel Hf.
    apply (General (lit " ") [] (lit "abc") fuel);
      [reflexivity | reflexivity | reflexivity | reflexivity | cbn; lia].
Qed.

Lemma extract_token_quoted_unterminated_witness :
  extract_token_quoted 12 (lit "  " ++ QUOTE :: lit "a\tb c") (lit " ") =
  Ok (Some (lit "a" ++ TAB :: lit "b c"), []) /\
  tokenize_quoted 12 (lit "  " ++ QUOTE :: lit "a\tb c") (lit " ") =
  Ok [lit "a" ++ TAB :: lit "b c"] /\
  (forallb (fun c => negb (Ascii.eqb c QUOTE) && negb (Ascii.eqb c BACKSLASH))
     (lit "a\tb c") = true ->
   unquote (lit "a\tb c") [] = lit "a\tb c").
Proof.
  apply (proj1 extract_token_quoted_unterminated
           (lit " ") (lit "  ") (lit "a\tb c") 12%nat);
    [reflexivity | reflexivity | reflexivity | reflexivity | cbn; lia].
Defined.

(** C10. Two adjacent double quotes are an empty quoted token: for a
    line whose first content behind the leading delimiters is two double
    quotes, the extractor returns the empty string as a token (and not no
    token), with the text behind the quotes as the new cursor, and
    [tokenize_quoted] returns the empty string as its first token, in
    front of the tokens of the text behind the quotes. So [tokenize_quoted]
    of the line of two double quotes returns the one token that is the
    empty string. *)
Theorem extract_token_quoted_empty_token :
  (forall (d gap rest : cstring) (fuel : nat),
      forallb (is_delim d) gap = true ->
      is_delim d QUOTE = false ->
      size (gap ++ QUOTE :: QUOTE :: rest) < npos ->
      (List.length (gap ++ QUOTE :: QUOTE :: rest) < fuel)%nat ->
      extract_token_quoted fuel (gap ++ QUOTE :: QUOTE :: rest) d =
      Ok (Some [], rest) /\
      exists toks,
        tokenize_quoted fuel rest d = Ok toks /\
        tokenize_quoted fuel (gap ++ QUOTE :: QUOTE :: rest) d =
        Ok ([] :: toks)) /\
  (forall fuel : nat,
      (2 < fuel)%nat ->
      tokenize_quoted fuel [QUOTE; QUOTE] (lit " ") = Ok [[]]).
Proof.
  assert (General : forall (d gap rest : cstring) (fuel : nat),
      forallb (is_delim d) gap = true ->
      is_delim d QUOTE = false ->
      size (gap ++ QUOTE :: QUOTE :: rest) < npos ->
      (List.length (gap ++ QUOTE :: QUOTE :: rest) < fuel)%nat ->
      extract_token_quoted fuel (gap ++ QUOTE :: QUOTE :: rest) d =
      Ok (Some [], rest)).
  { intros d gap rest fuel Hg Hq Hs Hf.
    rewrite extract_token_quoted_spec by assumption.
    now rewrite extract_spec_quoted by assumption. }
  split.
  - intros d gap rest fuel Hg Hq Hs Hf.
    split; [now apply General|].
    apply tokenize_quoted_first_token; try assumption.
    + destruct gap; discriminate.
    + now rewrite extract_spec_quoted by assumption.
  - intros fuel Hf.
    apply (tokenize_quoted_one_call (lit " ") fuel [QUOTE; QUOTE] (Some []));
      [|cbn; lia].
    apply (General (lit " ") [] []); [reflexivity.. | cbn; lia].
Qed.

Lemma extract_token_quoted_empty_token_witness :
  extract_token_quoted 8 (lit " " ++ QUOTE :: QUOTE :: lit " x y") (lit " ") =
  Ok (Some [], lit " x y") /\
  exists toks,
    tokenize_quoted 8 (lit " x y") (lit " ") = Ok toks /\
    tokenize_quoted 8 (lit " " ++ QUOTE :: QUOTE :: lit " x y") (lit " ") =
    Ok ([] :: toks).
Proof.
  apply (proj1 extract_token_quoted_empty_token
           (lit " ") (lit " ") (lit " x y") 8%nat);
    [reflexivity | reflexivity | reflexivity | cbn; lia].
Defined.


(** * Further functions of [utils.cpp] *)

(** ** [join] *)

Section Join.

Variable separator : cstring.

Lemma fold_left_join (strings : list cstring) (acc : cstring) :
  fold_left (fun result str => (result ++ str) ++ separator) strings acc =
  acc ++ List.concat (map (fun s => s ++ separator) strings).
Proof.
  revert acc. induction strings as [|s strings IH]; intros acc; cbn.
  - now rewrite app_nil_r.
  - rewrite IH. now rewrite <- !app_assoc.
Qed.

Lemma concat_map_intercalate (strings : list cstring) :
  strings <> [] ->
  List.concat (map (fun s => s ++ separator) strings) =
  intercalate separator strings ++ separator.
Proof.
  induction strings as [|s strings IH]; intros Hne; [congruence|].
  cbn [map List.concat intercalate].
  destruct strings as [|s' strings].
  - cbn. now rewrite app_nil_r.
  - rewrite IH by discriminate. now rewrite <- !app_assoc.
Qed.

Lemma erase_suffix (a b : cstring) :
  size (a ++ b) < npos ->
  erase (a ++ b) (size_sub (size (a ++ b)) (size b)) (size (a ++ b)) = Ok a.
Proof.
  intros Hs. rewrite size_app in *.
  pose proof (size_nonneg a). pose proof (size_nonneg b).
  unfold size_sub. replace (size a + size b - size b) with (size a) by lia.
  rewrite Z.mod_small by (unfold npos in Hs; lia).
  unfold erase. rewrite size_app.
  destruct (size a + size b <? size a) eqn:E; [apply Z.ltb_lt in E; lia|].
  cbv zeta. apply f_equal.
  replace (size a + Z.min (size a + size b) (size a + size b - size a))
    with (size (a ++ b)) by (rewrite size_app; lia).
  rewrite firstn_size.
  unfold size. rewrite Nat2Z.id, skipn_all. apply app_nil_r.
Qed.

Lemma join_is_intercalate (strings : list cstring) :
  size (List.concat (map (fun s => s ++ separator) strings)) < npos ->
  join strings separator = Ok (intercalate separator strings).
Proof.
  intros Hs. unfold join. rewrite fold_left_join. cbn [app].
  destruct strings as [|s strings]; [reflexivity|].
  rewrite concat_map_intercalate in * by discriminate.
  set (body := intercalate separator (s :: strings)) in *.
  destruct (0 <? size (body ++ separator)) eqn:E.
  - now apply erase_suffix.
  - apply Z.ltb_ge in E. pose proof (size_nonneg (body ++ separator)).
    assert (Hnil : body ++ separator = []).
    { destruct (body ++ separator); [reflexivity|].
      rewrite size_cons in *. pose proof (size_nonneg l). lia. }
    rewrite Hnil. apply app_eq_nil in Hnil as [-> _]. reflexivity.
Qed.

End Join.

Section JoinTokenize.

Variable d : cstring.

Lemma splits_intercalate (separator : cstring) (toks : list cstring) :
  Forall (fun t => t <> [] /\ forallb (not_delim d) t = true) toks ->
  separator <> [] ->
  forallb (is_delim d) separator = true ->
  splits d (intercalate separator toks) toks.
Proof.
  intros Htoks Hne Hsep.
  induction Htoks as [|t toks [Ht1 Ht2] Htoks IH].
  - now apply splits_nil.
  - cbn [intercalate]. destruct toks as [|t' toks].
    + pose proof (splits_cons d [] t [] [] eq_refl Ht1 Ht2 I
                    (splits_nil d [] eq_refl)) as H.
      cbn [app] in H. now rewrite app_nil_r in H.
    + apply (splits_cons d [] t
               (separator ++ intercalate separator (t' :: toks)) (t' :: toks));
        try assumption; try reflexivity.
      * destruct separator as [|c sep]; [congruence|].
        cbn in Hsep |- *. now apply andb_prop in Hsep as [Hc _].
      * now apply splits_gap_app.
Qed.

End JoinTokenize.

(** ** [partition_indexes] *)

Section Partition.

Lemma chunks_length (n : nat) (size_ start : Z) :
  List.length (chunks n size_ start) = n.
Proof.
  revert start. induction n as [|n IH]; intros start; cbn;
    [reflexivity | now rewrite IH].
Qed.

Lemma partition_indexes_loop_chunks (fuel : nat) :
  forall (parts size_ i start : Z) (acc : list (Z * Z)),
    1 <= parts < uint_max ->
    0 <= i <= parts - 1 ->
    (Z.to_nat (parts - 1 - i) < fuel)%nat ->
    partition_indexes_loop fuel parts size_ i start acc =
    Ok (acc ++ chunks (Z.to_nat (parts - 1 - i)) size_ start,
        chunks_end (Z.to_nat (parts - 1 - i)) size_ start).
Proof.
  induction fuel as [|fuel IH]; intros parts size_ i start acc Hp Hi Hf;
    [lia|].
  cbn [partition_indexes_loop].
  assert (Hsub : uint_sub parts 1 = parts - 1).
  { unfold uint_sub. apply Z.mod_small. lia. }
  rewrite Hsub.
  destruct (i <? parts - 1) eqn:E.
  - apply Z.ltb_lt in E.
    assert (Hsucc : uint_succ i = i + 1).
    { unfold uint_succ. apply Z.mod_small. lia. }
    rewrite Hsucc, IH by lia.
    replace (Z.to_nat (parts - 1 - i))
      with (S (Z.to_nat (parts - 1 - (i + 1)))) by lia.
    cbn [chunks chunks_end]. now rewrite <- app_assoc.
  - apply Z.ltb_ge in E.
    replace (Z.to_nat (parts - 1 - i)) with O by lia.
    cbn [chunks chunks_end]. now rewrite app_nil_r.
Qed.

Lemma partition_indexes_chunks (fuel : nat) (start end_ parts : Z) :
  1 <= parts < uint_max ->
  (Z.to_nat parts <= fuel)%nat ->
  partition_indexes fuel start end_ parts =
  Ok (chunks (Z.to_nat (parts - 1))
        (uint_add (uint_sub end_ start) 1 / parts) start
      ++ [(chunks_end (Z.to_nat (parts - 1))
             (uint_add (uint_sub end_ start) 1 / parts) start, end_)]).
Proof.
  intros Hp Hf. unfold partition_indexes.
  destruct (parts =? 0) eqn:E; [apply Z.eqb_eq in E; lia|].
  rewrite partition_indexes_loop_chunks by lia.
  cbn [bind app]. now rewrite Z.sub_0_r.
Qed.

(** With room for every chunk below [end_], no addition wraps around and
    the chunks tile the range. *)
Lemma chunks_tiles (n : nat) :
  forall (size_ start end_ : Z),
    0 <= start ->
    1 <= size_ ->
    start + Z.of_nat n * size_ <= end_ ->
    end_ < uint_max ->
    chunks_end n size_ start = start + Z.of_nat n * size_ /\
    tiles start end_
      (chunks n size_ start ++ [(start + Z.of_nat n * size_, end_)]) /\
    Forall (fun p => snd p - fst p + 1 = size_) (chunks n size_ start).
Proof.
  induction n as [|n IH]; intros size_ start end_ H0 H1 Hle Hend.
  - cbn [chunks chunks_end app]. rewrite Z.add_0_r.
    repeat split; [|constructor]. apply tiles_last. lia.
  - cbn [chunks chunks_end app].
    assert (Hadd : uint_add start size_ = start + size_).
    { unfold uint_add. apply Z.mod_small. nia. }
    assert (Hsub : uint_sub (start + size_) 1 = start + size_ - 1).
    { unfold uint_sub. apply Z.mod_small. nia. }
    rewrite Hadd, Hsub.
    destruct (IH size_ (start + size_) end_) as (He & Ht & Hf);
      [lia | lia | nia | lia |].
    replace (start + Z.of_nat (S n) * size_)
      with (start + size_ + Z.of_nat n * size_) by lia.
    repeat split.
    + exact He.
    + apply tiles_cons; [lia|].
      replace (start + size_ - 1 + 1) with (start + size_) by lia.
      exact Ht.
    + constructor; [cbn; lia | exact Hf].
Qed.

Lemma chunks_empty (n : nat) (start : Z) :
  0 <= start < uint_max ->
  chunks n 0 start = repeat (start, uint_sub start 1) n /\
  chunks_end n 0 start = start.
Proof.
  intros Hs.
  assert (Hadd : uint_add start 0 = start).
  { unfold uint_add. rewrite Z.add_0_r. apply Z.mod_small. lia. }
  induction n as [|n [IH1 IH2]]; cbn [chunks chunks_end repeat];
    [split; reflexivity|].
  rewrite Hadd, IH1, IH2. split; reflexivity.
Qed.

End Partition.

(** ** [clean_nonprintable_characters] *)

Section Clean.

Variable iswprint : Z -> bool.

Lemma wsize_app (a b : wstring) : wsize (a ++ b) = wsize a + wsize b.
Proof. unfold wsize. rewrite length_app. lia. Qed.

Lemma wat_wsize (pre : wstring) (c : Z) (rest : wstring) :
  wat (pre ++ c :: rest) (wsize pre) = c.
Proof.
  unfold wat, wsize. rewrite Nat2Z.id.
  induction pre as [|x pre IH]; [reflexivity | exact IH].
Qed.

Lemma wset_wsize (pre : wstring) (c x : Z) (rest : wstring) :
  wset (pre ++ c :: rest) (wsize pre) x = pre ++ x :: rest.
Proof.
  unfold wset, wsize. rewrite Nat2Z.id.
  induction pre as [|y pre IH]; cbn; [reflexivity | now rewrite IH].
Qed.

Lemma clean_nonprintable_characters_loop_map (fuel : nat) :
  forall (pre rest : wstring),
    wsize (pre ++ rest) < npos ->
    (List.length rest < fuel)%nat ->
    clean_nonprintable_characters_loop fuel iswprint (pre ++ rest) (wsize pre)
    = Ok (pre ++ map (clean_character iswprint) rest).
Proof.
  induction fuel as [|fuel IH]; intros pre rest Hs Hf; [lia|].
  cbn [clean_nonprintable_characters_loop].
  destruct rest as [|c rest].
  - cbn [map]. rewrite !app_nil_r. now rewrite Z.ltb_irrefl.
  - assert (Hlt : (wsize pre <? wsize (pre ++ c :: rest)) = true).
    { apply Z.ltb_lt. rewrite wsize_app. unfold wsize. cbn. lia. }
    rewrite Hlt, wat_wsize, wset_wsize.
    assert (Hadd : size_add (wsize pre) 1 = wsize (pre ++ [c])).
    { rewrite wsize_app in *. unfold size_add, wsize in *. cbn in *.
      apply Z.mod_small. unfold npos in Hs. lia. }
    rewrite Hadd.
    assert (Hstep :
      (if negb (iswprint c) then pre ++ REPLACEMENT_CHARACTER :: rest
       else pre ++ c :: rest) = (pre ++ [clean_character iswprint c]) ++ rest).
    { unfold clean_character. rewrite <- app_assoc.
      destruct (iswprint c); reflexivity. }
    rewrite Hstep.
    replace (wsize (pre ++ [c]))
      with (wsize (pre ++ [clean_character iswprint c]))
      by (now rewrite !wsize_app).
    rewrite IH.
    + cbn [map]. now rewrite <- app_assoc.
    + rewrite !wsize_app in *. unfold wsize in *. cbn in *. lia.
    + cbn in Hf. lia.
Qed.

Lemma clean_nonprintable_characters_is_map (fuel : nat) (text : wstring) :
  wsize text < npos ->
  (List.length text < fuel)%nat ->
  clean_nonprintable_characters fuel iswprint text =
  Ok (map (clean_character iswprint) text).
Proof.
  intros Hs Hf.
  exact (clean_nonprintable_characters_loop_map fuel [] text Hs Hf).
Qed.

End Clean.

(** ** More on the tokenizers *)

Lemma run_while_app_stop (p : ascii -> bool) (a b : cstring) :
  match b with [] => True | x :: _ => p x = false end ->
  run_while p (a ++ b) = run_while p a /\
  skip_while p (a ++ b) = skip_while p a ++ b.
Proof.
  intros Hb. induction a as [|x a [IH1 IH2]]; cbn [app run_while skip_while].
  - destruct b as [|y b]; [split; reflexivity|]. cbn. now rewrite Hb.
  - destruct (p x); [now rewrite IH1, IH2 | split; reflexivity].
Qed.

Lemma skip_while_app_all (p : ascii -> bool) (a b : cstring) :
  forallb p a = true -> skip_while p (a ++ b) = skip_while p b.
Proof.
  induction a as [|x a IH]; cbn; [reflexivity|].
  intros H. apply andb_prop in H as [-> H]. auto.
Qed.

Lemma skip_while_nil_all (p : ascii -> bool) (s : cstring) :
  skip_while p s = [] -> forallb p s = true.
Proof.
  induction s as [|c s IH]; cbn; [reflexivity|].
  destruct (p c); [exact IH | discriminate].
Qed.

Lemma skip_while_incl (p : ascii -> bool) (s : cstring) (c : ascii) :
  In c (skip_while p s) -> In c s.
Proof.
  induction s as [|x s IH]; cbn; [tauto|].
  destruct (p x); [intros H; right; auto | cbn; tauto].
Qed.

Section PlainLines.

Variable d : cstring.

(** One call of the extractor on a line whose text in front of [tail] has
    no quote and no ['#'], where [tail] is empty or a gap and a comment. *)
Lemma extract_spec_plain (s tail : cstring) :
  ~ In QUOTE s ->
  ~ In HASH s ->
  at_gap d tail ->
  (skip_while (is_delim d) tail = [] \/
   exists r, skip_while (is_delim d) tail = HASH :: r) ->
  (forallb (is_delim d) s = true /\ extract_spec d (s ++ tail) = (None, [])) \/
  (exists gap word s',
      s = gap ++ word ++ s' /\
      forallb (is_delim d) gap = true /\
      word <> [] /\
      forallb (not_delim d) word = true /\
      at_gap d s' /\
      extract_spec d (s ++ tail) = (Some word, s' ++ tail)).
Proof.
  intros Hq Hh Hg Htail.
  pose proof (run_skip (is_delim d) s) as Es.
  pose proof (run_while_all (is_delim d) s) as Hgap.
  pose proof (skip_while_head (is_delim d) s) as Hhead.
  destruct (skip_while (is_delim d) s) as [|c r] eqn:Er.
  - left. apply skip_while_nil_all in Er. split; [exact Er|].
    unfold extract_spec. rewrite skip_while_app_all by exact Er.
    destruct Htail as [-> | [r ->]]; [reflexivity|].
    now rewrite Ascii.eqb_refl.
  - right.
    assert (Hin : In c s).
    { apply (skip_while_incl (is_delim d)). rewrite Er. now left. }
    assert (Hch : Ascii.eqb c HASH = false).
    { apply Ascii.eqb_neq. intros ->. contradiction. }
    assert (Hcq : Ascii.eqb c QUOTE = false).
    { apply Ascii.eqb_neq. intros ->. contradiction. }
    destruct (run_while_app_stop (not_delim d) (c :: r) tail
                (at_gap_head d tail Hg)) as [E1 E2].
    exists (run_while (is_delim d) s), (run_while (not_delim d) (c :: r)),
      (skip_while (not_delim d) (c :: r)).
    repeat split.
    + now rewrite run_skip.
    + exact Hgap.
    + rewrite run_while_cons_true by now apply not_delim_true. discriminate.
    + apply run_while_all.
    + pose proof (skip_while_head (not_delim d) (c :: r)) as H.
      destruct (skip_while (not_delim d) (c :: r)); [exact I|].
      now apply not_delim_false.
    + unfold extract_spec. rewrite <- Es at 1. rewrite <- app_assoc.
      change ((c :: r) ++ tail) with (c :: r ++ tail) in *.
      rewrite skip_gap by assumption.
      rewrite Hch, Hcq, E1, E2. reflexivity.
Qed.

Lemma tokenize_quoted_loop_plain (fuel_in fuel : nat) :
  forall (s tail : cstring) (toks : list cstring),
    size (s ++ tail) < npos ->
    (List.length (s ++ tail) < fuel)%nat ->
    (List.length (s ++ tail) < fuel_in)%nat ->
    ~ In QUOTE s ->
    ~ In HASH s ->
    at_gap d tail ->
    (skip_while (is_delim d) tail = [] \/
     exists r, skip_while (is_delim d) tail = HASH :: r) ->
    exists toks',
      tokenize_quoted_loop fuel_in fuel d toks (s ++ tail) = Ok (toks ++ toks')
      /\ splits d s toks'.
Proof.
  induction fuel as [|fuel IH];
    intros s tail toks Hs Hf Hfi Hq Hh Hg Htail; [lia|].
  cbn [tokenize_quoted_loop].
  destruct (s ++ tail) as [|x xs] eqn:El.
  - apply app_eq_nil in El as [-> _]. exists []. rewrite app_nil_r.
    split; [reflexivity | now apply splits_nil].
  - rewrite <- El in *.
    rewrite extract_token_quoted_spec by assumption. cbn [bind].
    destruct (extract_spec_plain s tail Hq Hh Hg Htail)
      as [[Hall ->] | (gap & word & s' & Es & Hgap & Hne & Hword & Hg' & ->)].
    + exists []. rewrite app_nil_r. split; [|now apply splits_nil].
      destruct fuel as [|fuel]; [rewrite El in Hf; cbn in Hf; lia|].
      reflexivity.
    + assert (Hlen : (List.length (s' ++ tail) < List.length (s ++ tail))%nat).
      { rewrite Es, !length_app. destruct word; [congruence | cbn; lia]. }
      destruct (IH s' tail (toks ++ [word])) as (toks' & Hrun & Hsp);
        try assumption; try lia.
      * unfold size in *. lia.
      * intros H. apply Hq. rewrite Es. apply in_or_app. right.
        apply in_or_app. now right.
      * intros H. apply Hh. rewrite Es. apply in_or_app. right.
        apply in_or_app. now right.
      * exists (word :: toks'). split.
        -- rewrite Hrun. now rewrite <- app_assoc.
        -- rewrite Es. now apply splits_cons.
Qed.

Lemma tokenize_quoted_plain (fuel : nat) (s tail : cstring) :
  size (s ++ tail) < npos ->
  (List.length (s ++ tail) < fuel)%nat ->
  ~ In QUOTE s ->
  ~ In HASH s ->
  at_gap d tail ->
  (skip_while (is_delim d) tail = [] \/
   exists r, skip_while (is_delim d) tail = HASH :: r) ->
  exists toks,
    tokenize_quoted fuel (s ++ tail) d = Ok toks /\
    tokenize fuel s d = Ok toks.
Proof.
  intros Hs Hf Hq Hh Hg Htail.
  destruct (tokenize_quoted_loop_plain fuel fuel s tail [] Hs Hf Hf Hq Hh Hg
              Htail) as (toks & Hrun & Hsp).
  assert (Hs' : size s < npos).
  { rewrite size_app in Hs. pose proof (size_nonneg tail). lia. }
  assert (Hf' : (List.length s < fuel)%nat).
  { rewrite length_app in Hf. lia. }
  destruct (tokenize_splits d fuel s Hs' Hf') as (words & Hrun' & Hsp').
  exists toks. split; [exact Hrun|].
  rewrite Hrun'. f_equal. now apply (splits_functional d s).
Qed.

End PlainLines.

Section QuotedBodies.

Lemma unquote_closed (body rest token : cstring) :
  no_quote_no_escape body = true ->
  unquote (body ++ QUOTE :: rest) token = token ++ body /\
  after_quote (body ++ QUOTE :: rest) = Some rest.
Proof.
  revert token. induction body as [|c body IH]; intros token H.
  - cbn. now rewrite app_nil_r.
  - cbn [no_quote_no_escape forallb] in H. apply andb_prop in H as [Hc H].
    apply andb_prop in Hc as [Hq Hb]. apply negb_true_iff in Hq, Hb.
    cbn [app unquote after_quote]. rewrite Hq, Hb.
    destruct (IH (token ++ [c]) H) as [-> ->].
    now rewrite <- app_assoc.
Qed.

Lemma unquote_dangling (body token : cstring) :
  no_quote_no_escape body = true ->
  unquote (body ++ [BACKSLASH]) token = token ++ body /\
  after_quote (body ++ [BACKSLASH]) = None.
Proof.
  revert token. induction body as [|c body IH]; intros token H.
  - cbn. now rewrite app_nil_r.
  - cbn [no_quote_no_escape forallb] in H. apply andb_prop in H as [Hc H].
    apply andb_prop in Hc as [Hq Hb]. apply negb_true_iff in Hq, Hb.
    cbn [app unquote after_quote]. rewrite Hq, Hb.
    destruct (IH (token ++ [c]) H) as [-> ->].
    now rewrite <- app_assoc.
Qed.

Lemma unquote_escape (a tail token : cstring) (e : ascii) :
  no_quote_no_escape a = true ->
  unquote (a ++ BACKSLASH :: e :: tail) token =
  unquote tail (append_escapes (token ++ a) e) /\
  after_quote (a ++ BACKSLASH :: e :: tail) = after_quote tail.
Proof.
  revert token. induction a as [|c a IH]; intros token H.
  - cbn. now rewrite app_nil_r.
  - cbn [no_quote_no_escape forallb] in H. apply andb_prop in H as [Hc H].
    apply andb_prop in Hc as [Hq Hb]. apply negb_true_iff in Hq, Hb.
    cbn [app unquote after_quote]. rewrite Hq, Hb.
    destruct (IH (token ++ [c]) H) as [-> ->].
    now rewrite <- app_assoc.
Qed.

Lemma append_escapes_app (token : cstring) (e : ascii) :
  append_escapes token e = token ++ append_escapes [] e.
Proof.
  unfold append_escapes.
  repeat match goal with
         | |- context [if ?b then _ else _] => destruct b
         end; reflexivity.
Qed.

End QuotedBodies.

Section SpacedTokens.

Variable d : cstring.

Lemma spaced_nil_inv (toks : list cstring) : spaced d [] toks -> toks = [].
Proof.
  intros H. remember [] as s eqn:Es.
  destruct H as [| word Hne _ | word gap rest toks Hne _ _ _ _ _];
    [reflexivity | congruence |].
  destruct word; [congruence | discriminate].
Qed.

Lemma has_text_word (word : cstring) :
  word <> [] -> forallb (not_delim d) word = true -> has_text d word = true.
Proof.
  intros Hne H. destruct word as [|c word]; [congruence|].
  cbn in *. apply andb_prop in H as [-> _]. reflexivity.
Qed.

Lemma spaced_words (rest : cstring) (toks : list cstring) :
  spaced d rest toks ->
  splits d rest (filter (has_text d) toks) /\
  Forall (fun t => t <> [] /\
                   (forallb (is_delim d) t = true \/
                    forallb (not_delim d) t = true)) toks.
Proof.
  induction 1 as [| word Hne Hw
                  | word gap rest toks Hne Hw Hgne Hg Hr Hsp [IH1 IH2]].
  - split; [now apply splits_nil | constructor].
  - split.
    + cbn [filter]. rewrite has_text_word by assumption.
      pose proof (splits_cons d [] word [] [] eq_refl Hne Hw I
                    (splits_nil d [] eq_refl)) as H.
      cbn [app] in H. now rewrite app_nil_r in H.
    + constructor; [auto | constructor].
  - split.
    + cbn [filter]. rewrite has_text_word by assumption.
      unfold has_text at 1. rewrite existsb_not_delim_gap by assumption.
      apply (splits_cons d [] word (gap ++ rest)); try assumption;
        try reflexivity.
      * destruct gap as [|c gap]; [congruence|].
        cbn in Hg |- *. now apply andb_prop in Hg as [Hc _].
      * now apply splits_gap_app.
    + constructor; [auto|]. constructor; [auto | exact IH2].
Qed.

Lemma tokenize_spaced_loop_spaced (fuel : nat) :
  forall (s pre rest : cstring) (toks : list cstring),
    s = pre ++ rest ->
    size s < npos ->
    at_word d rest ->
    (List.length rest < fuel)%nat ->
    exists toks',
      tokenize_spaced_loop fuel s d toks (pos_of pre rest)
        (find_first_of s d (pos_of pre rest)) = Ok (toks ++ toks') /\
      spaced d rest toks'.
Proof.
  induction fuel as [|fuel IH]; intros s pre rest toks Es Hs Hw Hf; [lia|].
  destruct rest as [|c r].
  - exists []. cbn [pos_of]. rewrite find_first_of_npos by assumption.
    cbn. rewrite app_nil_r. split; [reflexivity | apply spaced_nil].
  - destruct (word_gap_split d (c :: r) Hw ltac:(discriminate))
      as (word & gap & rest' & Er & Hne & Hword & Hgap & Hg & Hw' & Hgne).
    rewrite Er in *. clear Er c r.
    destruct (pos_of_cons_lt s pre (word ++ gap ++ rest') Es Hs) as [Ep Hlt].
    { destruct word; [congruence | discriminate]. }
    rewrite (find_first_of_split d s pre word (gap ++ rest')) by assumption.
    cbn [tokenize_spaced_loop].
    replace (negb (npos =? pos_of pre (word ++ gap ++ rest')))
      with true by (rewrite Ep; symmetry; apply negb_true_iff, Z.eqb_neq; lia).
    rewrite orb_true_r.
    rewrite (substr_split s pre word (gap ++ rest')); try assumption.
    2:{ destruct word; [congruence | discriminate]. }
    cbn [bind].
    assert (Es' : s = (pre ++ word) ++ gap ++ rest')
      by now rewrite <- app_assoc.
    rewrite (find_first_not_of_split d s (pre ++ word) gap rest');
      try assumption.
    assert (Hf' : (List.length rest' < fuel)%nat).
    { rewrite !length_app in Hf.
      destruct word; [congruence | cbn in Hf; lia]. }
    assert (Es'' : s = ((pre ++ word) ++ gap) ++ rest')
      by now rewrite <- !app_assoc.
    destruct (list_eq_dec ascii_dec (gap ++ rest') []) as [Enil | Hnn].
    + apply app_eq_nil in Enil as [-> ->].
      cbn [pos_of]. rewrite Z.ltb_irrefl. cbn [bind].
      destruct (IH s ((pre ++ word) ++ []) [] (toks ++ [word]))
        as (toks' & Hrun & Hsp); try assumption.
      cbn [pos_of] in Hrun. apply spaced_nil_inv in Hsp. subst toks'.
      exists [word]. split.
      * rewrite Hrun. now rewrite app_nil_r.
      * cbn [app]. rewrite app_nil_r. now apply spaced_word.
    + destruct (pos_of_cons_lt s (pre ++ word) (gap ++ rest') Es' Hs Hnn)
        as [Ep' Hlt'].
      assert (Hgne' : gap <> []).
      { destruct rest'; [now rewrite app_nil_r in Hnn | apply Hgne].
        discriminate. }
      assert (Hlt2 : (pos_of (pre ++ word) (gap ++ rest')
                      <? pos_of ((pre ++ word) ++ gap) rest') = true).
      { apply Z.ltb_lt. rewrite Ep'. unfold pos_of.
        destruct rest'; [exact Hlt'|].
        rewrite (size_app (pre ++ word) gap).
        destruct gap; [congruence|]. rewrite size_cons.
        pose proof (size_nonneg gap). lia. }
      rewrite Hlt2.
      rewrite (substr_split s (pre ++ word) gap rest') by assumption.
      cbn [bind].
      destruct (IH s ((pre ++ word) ++ gap) rest' ((toks ++ [word]) ++ [gap]))
        as (toks' & Hrun & Hsp); try assumption.
      exists (word :: gap :: toks'). split.
      * rewrite Hrun. now rewrite <- !app_assoc.
      * now apply spaced_gap.
Qed.

Lemma tokenize_spaced_words (fuel : nat) (s : cstring) :
  size s < npos ->
  (List.length s < fuel)%nat ->
  exists toks,
    tokenize_spaced fuel s d = Ok toks /\
    splits d s (filter (has_text d) toks) /\
    Forall (fun t => forallb (is_delim d) t = true \/
                     forallb (not_delim d) t = true) toks /\
    (s <> [] -> Forall (fun t => t <> []) toks).
Proof.
  intros Hs Hf.
  destruct (leading_gap_split d s) as (gap & rest & Es & Hgap & Hw).
  unfold tokenize_spaced.
  rewrite (find_first_not_of_start d s gap rest) by assumption.
  assert (Hfirst : exists toks0,
    (if negb (pos_of gap rest =? 0)
     then bind (substr s 0 (pos_of gap rest)) (fun t => Ok [t])
     else Ok []) = Ok toks0 /\
    (toks0 = [] \/ toks0 = [gap]) /\
    (s <> [] -> Forall (fun t => t <> []) toks0)).
  { destruct (pos_of gap rest =? 0) eqn:E0; cbn [negb].
    - exists []. repeat split; [now left | constructor].
    - exists [gap]. subst s. rewrite substr_prefix by assumption.
      repeat split; [now right|].
      intros Hne. constructor; [|constructor]. intros ->.
      cbn [app pos_of] in *. destruct rest; [congruence | discriminate]. }
  destruct Hfirst as (toks0 & -> & H0 & Hne0). cbn [bind].
  destruct (tokenize_spaced_loop_spaced fuel s gap rest toks0 Es Hs Hw)
    as (toks & Hrun & Hsp).
  { rewrite Es, length_app in Hf. lia. }
  destruct (spaced_words rest toks Hsp) as [Hwords Hall].
  exists (toks0 ++ toks). split; [exact Hrun|].
  assert (Hf0 : filter (has_text d) toks0 = []).
  { destruct H0 as [-> | ->]; [reflexivity|]. cbn [filter].
    unfold has_text. now rewrite existsb_not_delim_gap. }
  repeat split.
  - rewrite filter_app, Hf0. cbn [app]. rewrite Es.
    now apply splits_gap_app.
  - apply Forall_app. split.
    + destruct H0 as [-> | ->]; constructor; [now left | constructor].
    + eapply Forall_impl; [|exact Hall]. cbn. tauto.
  - intros Hne. apply Forall_app. split; [now apply Hne0|].
    eapply Forall_impl; [|exact Hall]. cbn. tauto.
Qed.

End SpacedTokens.

(** ** [replace_all] with a list of pairs *)

Section ReplaceAll.

Lemma starts_with_app (pat s : cstring) :
  starts_with pat s = true -> s = pat ++ skipn (List.length pat) s.
Proof.
  revert s. induction pat as [|p pat IH]; intros s H; [reflexivity|].
  destruct s as [|c s]; [discriminate|]. cbn in H.
  apply andb_prop in H as [Hc H]. apply Ascii.eqb_eq in Hc. subst c.
  cbn. now rewrite <- IH.
Qed.

Lemma offset_le (pat s : cstring) (j : nat) :
  offset pat s = Some j -> (j <= List.length s)%nat.
Proof.
  revert j. induction s as [|c s IH]; intros j; cbn [offset].
  - destruct (starts_with pat []); [intros [= <-]; cbn; lia | discriminate].
  - destruct (starts_with pat (c :: s)); [intros [= <-]; lia|].
    destruct (offset pat s) as [k|]; [|discriminate].
    cbn. intros [= <-]. specialize (IH k eq_refl). lia.
Qed.

Lemma find_from_offset (pat s : cstring) (idx : Z) :
  find_from pat s idx =
  match offset pat s with
  | Some j => idx + Z.of_nat j
  | None => npos
  end.
Proof.
  revert idx. induction s as [|c s IH]; intros idx; cbn [find_from offset].
  - destruct (starts_with pat []); [cbn; lia | reflexivity].
  - destruct (starts_with pat (c :: s)); [cbn; lia|].
    rewrite IH. destruct (offset pat s); cbn; [lia | reflexivity].
Qed.

Lemma find_at (pre s pat : cstring) :
  size (pre ++ s) < npos ->
  find (pre ++ s) pat (size pre) =
  match offset pat s with
  | Some j => size pre + Z.of_nat j
  | None => npos
  end.
Proof.
  intros Hs. unfold find. rewrite size_app in *.
  pose proof (size_nonneg s).
  destruct (size pre + size s <? size pre) eqn:E; [apply Z.ltb_lt in E; lia|].
  rewrite skipn_size. apply find_from_offset.
Qed.

Lemma first_match_step_best (pre s : cstring)
  (acc : option (nat * (cstring * cstring))) (p : cstring * cstring) :
  size (pre ++ s) < npos ->
  (forall k q, acc = Some (k, q) -> (k <= List.length s)%nat) ->
  first_match_step (pre ++ s) (size pre) (at_offset pre acc) p =
  at_offset pre (best_step s acc p).
Proof.
  intros Hs Hacc. unfold first_match_step, best_step.
  rewrite find_at by assumption.
  rewrite size_app in Hs. pose proof (size_nonneg pre) as Hpre.
  assert (Hlen : size s = Z.of_nat (List.length s)) by reflexivity.
  destruct (offset (fst p) s) as [j|] eqn:Ej.
  - apply offset_le in Ej.
    replace (size pre + Z.of_nat j =? npos) with false
      by (symmetry; apply Z.eqb_neq; lia).
    cbn [negb andb].
    destruct acc as [[k q]|]; cbn [at_offset fst].
    + specialize (Hacc k q eq_refl).
      destruct (j <? k)%nat eqn:E.
      * apply Nat.ltb_lt in E.
        replace (size pre + Z.of_nat j <? size pre + Z.of_nat k) with true
          by (symmetry; apply Z.ltb_lt; lia).
        reflexivity.
      * apply Nat.ltb_ge in E.
        replace (size pre + Z.of_nat j <? size pre + Z.of_nat k) with false
          by (symmetry; apply Z.ltb_ge; lia).
        reflexivity.
    + replace (size pre + Z.of_nat j <? npos) with true
        by (symmetry; apply Z.ltb_lt; lia).
      reflexivity.
  - rewrite Z.eqb_refl. reflexivity.
Qed.

Lemma best_step_le (s : cstring) (acc : option (nat * (cstring * cstring)))
  (p : cstring * cstring) :
  (forall k q, acc = Some (k, q) -> (k <= List.length s)%nat) ->
  forall k q, best_step s acc p = Some (k, q) -> (k <= List.length s)%nat.
Proof.
  intros Hacc k q. unfold best_step.
  destruct (offset (fst p) s) as [j|] eqn:Ej; [|apply Hacc].
  apply offset_le in Ej.
  destruct acc as [[k' q']|].
  - destruct (j <? k')%nat; [intros [= <- _]; exact Ej | apply Hacc].
  - intros [= <- _]. exact Ej.
Qed.

Lemma fold_first_match_best (pre s : cstring)
  (pairs : list (cstring * cstring)) :
  size (pre ++ s) < npos ->
  forall acc,
    (forall k q, acc = Some (k, q) -> (k <= List.length s)%nat) ->
    fold_left (first_match_step (pre ++ s) (size pre)) pairs
      (at_offset pre acc) = at_offset pre (best pairs s acc).
Proof.
  intros Hs. unfold best.
  induction pairs as [|p pairs IH]; intros acc Hacc; [reflexivity|].
  cbn [fold_left]. rewrite first_match_step_best by assumption.
  apply IH. now apply best_step_le.
Qed.

(** *** The smallest offset, read from the left *)

Lemma best_settled (s : cstring) (pairs : list (cstring * cstring))
  (q : cstring * cstring) :
  best pairs s (Some (O, q)) = Some (O, q).
Proof.
  unfold best. induction pairs as [|p pairs IH]; [reflexivity|].
  cbn [fold_left]. unfold best_step at 2.
  destruct (offset (fst p) s) as [j|]; [|exact IH].
  now replace (j <? 0)%nat with false by (symmetry; apply Nat.ltb_ge; lia).
Qed.

Lemma best_here (s : cstring) (pairs : list (cstring * cstring))
  (p : cstring * cstring) (acc : option (nat * (cstring * cstring))) :
  first_prefix pairs s = Some p ->
  (forall q, acc <> Some (O, q)) ->
  best pairs s acc = Some (O, p).
Proof.
  unfold best. revert acc.
  induction pairs as [|x pairs IH]; intros acc Hp Hacc; [discriminate|].
  cbn [fold_left first_prefix] in *. unfold best_step at 2.
  destruct s as [|c s]; cbn [offset].
  - destruct (starts_with (fst x) []) eqn:E.
    + injection Hp as ->.
      destruct acc as [[[|k] q]|];
        [now destruct (Hacc q) | apply best_settled | apply best_settled].
    + now apply IH.
  - destruct (starts_with (fst x) (c :: s)) eqn:E.
    + injection Hp as ->.
      destruct acc as [[[|k] q]|];
        [now destruct (Hacc q) | apply best_settled | apply best_settled].
    + destruct (offset (fst x) s) as [j|]; cbn [option_map].
      * apply IH; [exact Hp|].
        destruct acc as [[k q]|]; [|discriminate].
        destruct (S j <? k)%nat; [discriminate | exact Hacc].
      * now apply IH.
Qed.

Lemma best_later (c : ascii) (s : cstring) (pairs : list (cstring * cstring))
  (acc : option (nat * (cstring * cstring))) :
  first_prefix pairs (c :: s) = None ->
  (forall q, acc <> Some (O, q)) ->
  best pairs (c :: s) acc = shift (best pairs s (unshift acc)).
Proof.
  unfold best. revert acc.
  induction pairs as [|x pairs IH]; intros acc Hp Hacc.
  - cbn. destruct acc as [[[|k] q]|]; [now destruct (Hacc q) | | ]; reflexivity.
  - cbn [fold_left first_prefix] in *.
    destruct (starts_with (fst x) (c :: s)) eqn:E; [discriminate|].
    unfold best_step at 2 4. cbn [offset]. rewrite E.
    destruct (offset (fst x) s) as [j|]; cbn [option_map].
    + destruct acc as [[[|k] q]|]; [now destruct (Hacc q) | | ].
      * cbn [unshift Nat.pred].
        change (S j <? S k)%nat with (j <? k)%nat.
        destruct (j <? k)%nat.
        -- rewrite (IH (Some (S j, x)) Hp) by discriminate. reflexivity.
        -- rewrite (IH (Some (S k, q)) Hp) by discriminate. reflexivity.
      * cbn [unshift].
        rewrite (IH (Some (S j, x)) Hp) by discriminate. reflexivity.
    + now apply IH.
Qed.

Lemma best_nowhere (pairs : list (cstring * cstring)) :
  first_prefix pairs [] = None -> best pairs [] None = None.
Proof.
  unfold best. induction pairs as [|x pairs IH]; [reflexivity|].
  cbn [fold_left first_prefix]. unfold best_step at 2. cbn [offset].
  destruct (starts_with (fst x) []); [discriminate | exact IH].
Qed.

Lemma best_next_match (pairs : list (cstring * cstring)) (s : cstring) :
  best pairs s None = next_match pairs s.
Proof.
  induction s as [|c s IH]; cbn [next_match].
  - destruct (first_prefix pairs []) as [p|] eqn:E.
    + now apply best_here.
    + now apply best_nowhere.
  - destruct (first_prefix pairs (c :: s)) as [p|] eqn:E.
    + now apply best_here.
    + rewrite best_later by (assumption || discriminate).
      cbn [unshift]. now rewrite IH.
Qed.

End ReplaceAll.

Section ReplaceAllLoop.

Variable pairs : list (cstring * cstring).

Lemma first_prefix_starts (s : cstring) (p : cstring * cstring) :
  first_prefix pairs s = Some p -> In p pairs /\ starts_with (fst p) s = true.
Proof.
  induction pairs as [|x l IH]; cbn [first_prefix]; [discriminate|].
  destruct (starts_with (fst x) s) eqn:E.
  - intros [= <-]. split; [now left | exact E].
  - intros H. destruct (IH H) as [Hin Hst]. split; [now right | exact Hst].
Qed.

Lemma next_match_In (s : cstring) (j : nat) (p : cstring * cstring) :
  next_match pairs s = Some (j, p) -> In p pairs.
Proof.
  revert j. induction s as [|c s IH]; intros j; cbn [next_match].
  - destruct (first_prefix pairs []) eqn:E; [|discriminate].
    intros [= _ <-]. now apply first_prefix_starts in E.
  - destruct (first_prefix pairs (c :: s)) eqn:E.
    + intros [= _ <-]. now apply first_prefix_starts in E.
    + destruct (next_match pairs s) as [[j' q]|]; [|discriminate].
      cbn. intros [= _ <-]. now apply (IH j').
Qed.

Lemma rewrite_from_skip (k : nat) (s : cstring) :
  rewrite_from pairs k s = rewrite_from pairs O (skipn k s).
Proof.
  revert k. induction s as [|c s IH]; intros k.
  - now rewrite skipn_nil.
  - destruct k as [|k]; [reflexivity|]. cbn [rewrite_from skipn]. apply IH.
Qed.

Lemma rewrite_from_no_match (s : cstring) :
  next_match pairs s = None -> rewrite_from pairs O s = s.
Proof.
  induction s as [|c s IH]; [reflexivity|].
  cbn [next_match rewrite_from].
  destruct (first_prefix pairs (c :: s)); [discriminate|].
  destruct (next_match pairs s) as [[j p]|]; [discriminate|].
  intros _. now rewrite IH.
Qed.

Lemma rewrite_from_match (s : cstring) :
  forall (j : nat) (p : cstring * cstring),
    next_match pairs s = Some (j, p) ->
    fst p <> [] ->
    (j + List.length (fst p) <= List.length s)%nat /\
    s = firstn j s ++ fst p ++ skipn (j + List.length (fst p)) s /\
    rewrite_from pairs O s =
    firstn j s ++ snd p
      ++ rewrite_from pairs O (skipn (j + List.length (fst p)) s).
Proof.
  induction s as [|c s IH]; intros j p Hm Hne; cbn [next_match] in Hm.
  - destruct (first_prefix pairs []) as [q|] eqn:E; [|discriminate].
    injection Hm as <- ->. apply first_prefix_starts in E as [_ E].
    destruct (fst p); [congruence | discriminate].
  - destruct (first_prefix pairs (c :: s)) as [q|] eqn:E.
    + injection Hm as <- ->. cbn [rewrite_from]. rewrite E.
      apply first_prefix_starts in E as [_ E].
      pose proof (starts_with_app _ _ E) as Happ.
      cbn [Nat.add firstn app].
      destruct (fst p) as [|x pat] eqn:Ep; [congruence|].
      cbn [List.length Nat.pred skipn] in *.
      repeat split.
      * pose proof (f_equal (@List.length ascii) Happ) as Hl.
        rewrite length_app in Hl. cbn [List.length] in Hl |- *. lia.
      * exact Happ.
      * now rewrite rewrite_from_skip.
    + destruct (next_match pairs s) as [[j' q]|] eqn:En; [|discriminate].
      cbn [shift] in Hm. injection Hm as <- ->.
      destruct (IH j' p eq_refl Hne) as (Hle & Hs & Hr).
      cbn [rewrite_from]. rewrite E.
      cbn [Nat.add firstn skipn List.length app].
      repeat split.
      * lia.
      * now rewrite <- Hs.
      * now rewrite Hr.
Qed.

Lemma substr_at (pre s : cstring) (n : nat) :
  size (pre ++ s) < npos ->
  substr (pre ++ s) (size pre) (Z.of_nat n) = Ok (firstn n s).
Proof.
  intros Hs. unfold substr. rewrite size_app in *.
  pose proof (size_nonneg pre). pose proof (size_nonneg s).
  destruct (size pre + size s <? size pre) eqn:E;
    [apply Z.ltb_lt in E; lia|].
  rewrite skipn_size. cbv zeta. apply f_equal.
  replace (size pre + size s - size pre) with (size s) by lia.
  destruct (Z.le_ge_cases (Z.of_nat n) (size s)) as [Hle | Hge].
  - rewrite Z.min_l by assumption. now rewrite Nat2Z.id.
  - rewrite Z.min_r by assumption.
    unfold size in *. rewrite Nat2Z.id.
    rewrite firstn_all. symmetry. apply firstn_all2. lia.
Qed.

Lemma replace_all_loop_rewrite (fuel : nat) :
  forall (str pre s output : cstring),
    str = pre ++ s ->
    size str < npos ->
    (forall p, In p pairs -> fst p <> []) ->
    (List.length s < fuel)%nat ->
    replace_all_loop fuel str pairs (size pre) output =
    Ok (output ++ rewrite_from pairs O s).
Proof.
  induction fuel as [|fuel IH]; intros str pre s output Es Hs Hne Hf; [lia|].
  cbn [replace_all_loop].
  destruct s as [|c s].
  - rewrite app_nil_r in Es. subst str. rewrite Z.eqb_refl.
    cbn. now rewrite app_nil_r.
  - assert (Hcur : (size pre =? size str) = false).
    { apply Z.eqb_neq. subst str. rewrite size_app, size_cons.
      pose proof (size_nonneg s). lia. }
    rewrite Hcur. cbn [negb].
    assert (Hfold :
      fold_left (first_match_step str (size pre)) pairs (npos, ([], [])) =
      at_offset pre (next_match pairs (c :: s))).
    { rewrite Es in Hs |- *.
      change (npos, (@nil ascii, @nil ascii)) with (at_offset pre None).
      rewrite fold_first_match_best by (assumption || discriminate).
      now rewrite best_next_match. }
    rewrite Hfold. clear Hfold.
    destruct (next_match pairs (c :: s)) as [[j p]|] eqn:En.
    + assert (Hp : fst p <> []) by (apply Hne; now apply (next_match_In _ _ _ En)).
      destruct (rewrite_from_match (c :: s) j p En Hp) as (Hle & Hsplit & Hr).
      cbn [at_offset fst snd].
      assert (Hstr : size str = size pre + size (c :: s))
        by (subst str; apply size_app).
      pose proof (size_nonneg pre) as Hpre.
      assert (Hlen : size (c :: s) = Z.of_nat (List.length (c :: s)))
        by reflexivity.
      assert (Hfp : size (fst p) = Z.of_nat (List.length (fst p)))
        by reflexivity.
      replace (size pre + Z.of_nat j =? npos) with false
        by (symmetry; apply Z.eqb_neq; lia).
      assert (Hsub : size_sub (size pre + Z.of_nat j) (size pre) = Z.of_nat j).
      { unfold size_sub.
        replace (size pre + Z.of_nat j - size pre) with (Z.of_nat j) by lia.
        apply Z.mod_small. unfold npos in Hs. lia. }
      rewrite Hsub. rewrite Es at 1.
      rewrite substr_at by (subst str; exact Hs). cbn [bind].
      set (lit_ := firstn j (c :: s)) in *.
      set (rest := skipn (j + List.length (fst p)) (c :: s)) in *.
      assert (Hj : List.length lit_ = j).
      { unfold lit_. apply firstn_length_le. lia. }
      assert (Hadd : size_add (size pre + Z.of_nat j) (size (fst p))
                     = size ((pre ++ lit_) ++ fst p)).
      { rewrite !size_app. unfold size_add.
        replace (size lit_) with (Z.of_nat j) by (unfold size; now rewrite Hj).
        apply Z.mod_small. unfold npos in Hs. lia. }
      rewrite Hadd.
      rewrite (IH str ((pre ++ lit_) ++ fst p) rest
                 ((output ++ lit_) ++ snd p)); try assumption.
      * rewrite Hr. now rewrite <- !app_assoc.
      * rewrite Es. rewrite Hsplit at 1. now rewrite <- !app_assoc.
      * apply (f_equal (@List.length ascii)) in Hsplit.
        rewrite !length_app in Hsplit.
        destruct (fst p); [congruence | cbn [List.length] in *; lia].
    + cbn [at_offset fst]. rewrite Z.eqb_refl.
      rewrite Es at 1. rewrite substr_suffix by (subst str; exact Hs).
      cbn [bind]. now rewrite rewrite_from_no_match.
Qed.

Lemma replace_all_rewrite (fuel : nat) (str : cstring) :
  (forall p, In p pairs -> fst p <> []) ->
  size str < npos ->
  (List.length str < fuel)%nat ->
  replace_all fuel str pairs = Ok (rewrite_from pairs O str).
Proof.
  intros Hne Hs Hf.
  exact (replace_all_loop_rewrite fuel str [] str [] eq_refl Hs Hne Hf).
Qed.

Lemma best_none (s : cstring) :
  (forall p, In p pairs -> offset (fst p) s = None) ->
  best pairs s None = None.
Proof.
  unfold best. induction pairs as [|x l IH]; intros H; [reflexivity|].
  cbn [fold_left]. unfold best_step at 2.
  rewrite (H x) by now left. apply IH. intros p Hp. apply H. now right.
Qed.

Lemma find_npos_offset (s pat : cstring) :
  size s < npos -> find s pat 0 = npos -> offset pat s = None.
Proof.
  intros Hs H. pose proof (find_at [] s pat Hs) as Hf. cbn [app] in Hf.
  change (size []) with 0 in Hf. rewrite H in Hf.
  destruct (offset pat s) as [j|] eqn:E; [|reflexivity].
  apply offset_le in E. unfold size in Hs. lia.
Qed.

Lemma first_prefix_single (c : ascii) (s : cstring) :
  (forall p, In p pairs -> List.length (fst p) = 1%nat) ->
  first_prefix pairs (c :: s) = first_prefix pairs [c].
Proof.
  induction pairs as [|x l IH]; intros H; [reflexivity|].
  cbn [first_prefix].
  assert (Hx : List.length (fst x) = 1%nat) by (apply H; now left).
  destruct (fst x) as [|a [|b pat]]; try discriminate.
  cbn [starts_with]. rewrite IH by (intros p Hp; apply H; now right).
  reflexivity.
Qed.

Lemma rewrite_from_single (s : cstring) :
  (forall p, In p pairs -> List.length (fst p) = 1%nat) ->
  rewrite_from pairs O s = flat_map (replace_character pairs) s.
Proof.
  intros H. induction s as [|c s IH]; [reflexivity|].
  cbn [rewrite_from flat_map]. unfold replace_character at 1.
  rewrite first_prefix_single by assumption.
  destruct (first_prefix pairs [c]) as [p|] eqn:E.
  - apply first_prefix_starts in E as [Hin _].
    rewrite (H p Hin). cbn [Nat.pred]. now rewrite IH.
  - cbn [app]. now rewrite IH.
Qed.

End ReplaceAllLoop.

Lemma find_from_nonneg (pat s : cstring) (idx : Z) :
  0 <= idx -> 0 <= find_from pat s idx.
Proof.
  revert idx. induction s as [|c s IH]; intros idx H; cbn [find_from].
  - destruct (starts_with pat []); [exact H | unfold npos, size_max; lia].
  - destruct (starts_with pat (c :: s)); [exact H | apply IH; lia].
Qed.

Lemma fold_first_match_zero (str : cstring) (q : cstring * cstring)
  (pairs : list (cstring * cstring)) :
  fold_left (first_match_step str 0) pairs (0, q) = (0, q).
Proof.
  induction pairs as [|p pairs IH]; [reflexivity|].
  cbn [fold_left]. unfold first_match_step at 2. cbn [fst].
  assert (H : 0 <= find str (fst p) 0).
  { unfold find. destruct (size str <? 0); [unfold npos, size_max; lia|].
    now apply find_from_nonneg. }
  replace (find str (fst p) 0 <? 0) with false
    by (symmetry; apply Z.ltb_ge; exact H).
  rewrite andb_false_r. exact IH.
Qed.

(** * Further properties of the code *)

(** ** The tokenizers *)

(** X1. On a line that holds no double quote and no ['#'],
    [tokenize_quoted] returns what [tokenize] returns: a backslash outside
    quotes is ordinary text. *)
Theorem tokenize_quoted_agrees_with_tokenize (d s : cstring) (fuel : nat) :
  size s < npos ->
  (List.length s < fuel)%nat ->
  ~ In QUOTE s ->
  ~ In HASH s ->
  exists toks,
    tokenize_quoted fuel s d = Ok toks /\ tokenize fuel s d = Ok toks.
Proof.
  intros Hs Hf Hq Hh.
  pose proof (tokenize_quoted_plain d fuel s []) as H.
  rewrite app_nil_r in H. apply H; try assumption; [exact I | now left].
Qed.

Lemma tokenize_quoted_agrees_with_tokenize_witness :
  exists toks,
    tokenize_quoted 12 (lit " ab\n  c\ ") (lit " ") = Ok toks /\
    tokenize 12 (lit " ab\n  c\ ") (lit " ") = Ok toks.
Proof.
  apply (tokenize_quoted_agrees_with_tokenize (lit " ") (lit " ab\n  c\ ") 12).
  - reflexivity.
  - cbn; lia.
  - cbn. intros H. repeat (destruct H as [H | H]; [discriminate|]). exact H.
  - cbn. intros H. repeat (destruct H as [H | H]; [discriminate|]). exact H.
Defined.

(** X2. A ['#'] that starts a word opens a comment: behind a text without
    quotes and ['#'] and a run of delimiters that is not empty, ['#'] and
    all that follows it are dropped, and [tokenize_quoted] returns the
    tokens of the text in front. *)
Theorem tokenize_quoted_drops_comment
  (d s gap rest : cstring) (fuel : nat) :
  ~ In QUOTE s ->
  ~ In HASH s ->
  gap <> [] ->
  forallb (is_delim d) gap = true ->
  is_delim d HASH = false ->
  size (s ++ gap ++ HASH :: rest) < npos ->
  (List.length (s ++ gap ++ HASH :: rest) < fuel)%nat ->
  exists toks,
    tokenize_quoted fuel (s ++ gap ++ HASH :: rest) d = Ok toks /\
    tokenize fuel s d = Ok toks.
Proof.
  intros Hq Hh Hne Hgap Hhash Hs Hf.
  apply tokenize_quoted_plain; try assumption.
  - destruct gap as [|c gap]; [congruence|]. cbn in Hgap |- *.
    now apply andb_prop in Hgap as [Hc _].
  - right. exists rest. now apply skip_gap.
Qed.

Lemma tokenize_quoted_drops_comment_witness :
  exists toks,
    tokenize_quoted 24 (lit "set a b" ++ lit "  " ++ HASH :: lit " no c")
      (lit " ") = Ok toks /\
    tokenize 24 (lit "set a b") (lit " ") = Ok toks.
Proof.
  apply (tokenize_quoted_drops_comment (lit " ") (lit "set a b") (lit "  ")
           (lit " no c") 24).
  - cbn. intros H. repeat (destruct H as [H | H]; [discriminate|]). exact H.
  - cbn. intros H. repeat (destruct H as [H | H]; [discriminate|]). exact H.
  - discriminate.
  - reflexivity.
  - reflexivity.
  - reflexivity.
  - cbn; lia.
Defined.

(** X3. The tokens of [tokenize_spaced] are runs of one kind, delimiters
    only or no delimiter at all; without the tokens of delimiters they are
    the tokens of [tokenize]; and no token is empty unless the line is. *)
Theorem tokenize_spaced_tokens (d s : cstring) (fuel : nat) :
  size s < npos ->
  (List.length s < fuel)%nat ->
  exists toks,
    tokenize_spaced fuel s d = Ok toks /\
    tokenize fuel s d = Ok (filter (has_text d) toks) /\
    Forall (fun t => forallb (is_delim d) t = true \/
                     forallb (not_delim d) t = true) toks /\
    (s <> [] -> Forall (fun t => t <> []) toks).
Proof.
  intros Hs Hf.
  destruct (tokenize_spaced_words d fuel s Hs Hf)
    as (toks & Hrun & Hsp & Hall & Hne).
  destruct (tokenize_splits d fuel s Hs Hf) as (words & Hrun' & Hsp').
  exists toks. repeat split; try assumption.
  rewrite Hrun'. f_equal. now apply (splits_functional d s).
Qed.

Lemma tokenize_spaced_tokens_witness :
  exists toks,
    tokenize_spaced 9 (lit "  a, b ") (lit " ,") = Ok toks /\
    tokenize 9 (lit "  a, b ") (lit " ,") =
    Ok (filter (has_text (lit " ,")) toks) /\
    Forall (fun t => forallb (is_delim (lit " ,")) t = true \/
                     forallb (not_delim (lit " ,")) t = true) toks /\
    (lit "  a, b " <> [] -> Forall (fun t => t <> []) toks).
Proof.
  apply (tokenize_spaced_tokens (lit " ,") (lit "  a, b ") 9);
    [reflexivity | cbn; lia].
Defined.

(** X4. A quoted token that is closed: where the text between the quotes
    holds no quote and no backslash, the token is that text, delimiters
    and ['#'] included, and the cursor is what follows the closing quote,
    whatever it is. *)
Theorem extract_token_quoted_closed_quote
  (d gap body rest : cstring) (fuel : nat) :
  forallb (is_delim d) gap = true ->
  is_delim d QUOTE = false ->
  no_quote_no_escape body = true ->
  size (gap ++ QUOTE :: body ++ QUOTE :: rest) < npos ->
  (List.length (gap ++ QUOTE :: body ++ QUOTE :: rest) < fuel)%nat ->
  extract_token_quoted fuel (gap ++ QUOTE :: body ++ QUOTE :: rest) d =
  Ok (Some body, rest).
Proof.
  intros Hg Hq Hb Hs Hf.
  rewrite extract_token_quoted_spec by assumption.
  rewrite extract_spec_quoted by assumption.
  unfold quoted_rest.
  destruct (unquote_closed body rest [] Hb) as [-> ->]. reflexivity.
Qed.

Lemma extract_token_quoted_closed_quote_witness :
  extract_token_quoted 16
    (lit " " ++ QUOTE :: lit "a #b" ++ QUOTE :: lit "c d") (lit " ") =
  Ok (Some (lit "a #b"), lit "c d").
Proof.
  apply (extract_token_quoted_closed_quote (lit " ") (lit " ") (lit "a #b")
           (lit "c d") 16);
    [reflexivity | reflexivity | reflexivity | reflexivity | cbn; lia].
Defined.

(** X5. A backslash that ends the line inside quotes is dropped: the token
    is the text in front of it and the cursor is empty. *)
Theorem extract_token_quoted_dangling_backslash
  (d gap body : cstring) (fuel : nat) :
  forallb (is_delim d) gap = true ->
  is_delim d QUOTE = false ->
  no_quote_no_escape body = true ->
  size (gap ++ QUOTE :: body ++ [BACKSLASH]) < npos ->
  (List.length (gap ++ QUOTE :: body ++ [BACKSLASH]) < fuel)%nat ->
  extract_token_quoted fuel (gap ++ QUOTE :: body ++ [BACKSLASH]) d =
  Ok (Some body, []) /\
  tokenize_quoted fuel (gap ++ QUOTE :: body ++ [BACKSLASH]) d = Ok [body].
Proof.
  intros Hg Hq Hb Hs Hf.
  assert (He : extract_token_quoted fuel (gap ++ QUOTE :: body ++ [BACKSLASH]) d
               = Ok (Some body, [])).
  { rewrite extract_token_quoted_spec by assumption.
    rewrite extract_spec_quoted by assumption.
    unfold quoted_rest.
    destruct (unquote_dangling body [] Hb) as [-> ->]. reflexivity. }
  split; [exact He|].
  exact (tokenize_quoted_one_call d fuel _ _ He Hf).
Qed.

Lemma extract_token_quoted_dangling_backslash_witness :
  extract_token_quoted 8 (lit " " ++ QUOTE :: lit "ab" ++ [BACKSLASH])
    (lit " ") = Ok (Some (lit "ab"), []) /\
  tokenize_quoted 8 (lit " " ++ QUOTE :: lit "ab" ++ [BACKSLASH]) (lit " ") =
  Ok [lit "ab"].
Proof.
  apply (extract_token_quoted_dangling_backslash (lit " ") (lit " ") (lit "ab")
           8);
    [reflexivity | reflexivity | reflexivity | reflexivity | cbn; lia].
Defined.

(** X6. An escape inside quotes: the backslash and the character behind it
    give what [append_escapes] appends for that character, and the text goes
    on; so an escaped quote does not close the token. *)
Theorem extract_token_quoted_escape
  (d gap a b rest : cstring) (e : ascii) (fuel : nat) :
  forallb (is_delim d) gap = true ->
  is_delim d QUOTE = false ->
  no_quote_no_escape a = true ->
  no_quote_no_escape b = true ->
  size (gap ++ QUOTE :: a ++ BACKSLASH :: e :: b ++ QUOTE :: rest) < npos ->
  (List.length (gap ++ QUOTE :: a ++ BACKSLASH :: e :: b ++ QUOTE :: rest)
   < fuel)%nat ->
  extract_token_quoted fuel
    (gap ++ QUOTE :: a ++ BACKSLASH :: e :: b ++ QUOTE :: rest) d =
  Ok (Some (a ++ append_escapes [] e ++ b), rest).
Proof.
  intros Hg Hq Ha Hb Hs Hf.
  rewrite extract_token_quoted_spec by assumption.
  rewrite extract_spec_quoted by assumption.
  unfold quoted_rest.
  destruct (unquote_escape a (b ++ QUOTE :: rest) [] e Ha) as [-> ->].
  destruct (unquote_closed b rest (append_escapes ([] ++ a) e) Hb) as [-> ->].
  cbn [app]. rewrite (append_escapes_app a e). now rewrite <- app_assoc.
Qed.

Lemma extract_token_quoted_escape_witness :
  extract_token_quoted 16
    (QUOTE :: lit "say " ++ BACKSLASH :: QUOTE :: lit "hi" ++ QUOTE :: lit " x")
    (lit " ") =
  Ok (Some (lit "say " ++ QUOTE :: lit "hi"), lit " x").
Proof.
  apply (extract_token_quoted_escape (lit " ") [] (lit "say ") (lit "hi")
           (lit " x") QUOTE 16);
    [reflexivity | reflexivity | reflexivity | reflexivity | reflexivity
    | cbn; lia].
Defined.

(** X7. A word without quotes: where the first character behind the
    leading delimiters is no delimiter, no ['#'] and no quote, the token is
    the run of characters up to the next delimiter, and a ['#'] or a quote
    inside it is ordinary text; the cursor starts at that delimiter. *)
Theorem extract_token_quoted_word
  (d gap word rest : cstring) (c : ascii) (fuel : nat) :
  forallb (is_delim d) gap = true ->
  forallb (not_delim d) (c :: word) = true ->
  c <> HASH ->
  c <> QUOTE ->
  at_gap d rest ->
  size (gap ++ c :: word ++ rest) < npos ->
  (List.length (gap ++ c :: word ++ rest) < fuel)%nat ->
  extract_token_quoted fuel (gap ++ c :: word ++ rest) d =
  Ok (Some (c :: word), rest).
Proof.
  intros Hg Hw Hh Hq Hr Hs Hf.
  rewrite extract_token_quoted_spec by assumption.
  unfold extract_spec.
  assert (Hc : is_delim d c = false).
  { cbn in Hw. apply andb_prop in Hw as [Hc _]. now apply not_delim_true. }
  rewrite skip_gap by assumption.
  apply Ascii.eqb_neq in Hh, Hq. rewrite Hh, Hq.
  destruct (run_while_app (not_delim d) (c :: word) rest Hw
              (at_gap_head d rest Hr)) as [E1 E2].
  cbn [app] in E1, E2. now rewrite E1, E2.
Qed.

Lemma extract_token_quoted_word_witness :
  extract_token_quoted 12 (lit "  " ++ "a"%char :: lit "#b" ++ lit " c")
    (lit " ") = Ok (Some ("a"%char :: lit "#b"), lit " c").
Proof.
  apply (extract_token_quoted_word (lit " ") (lit "  ") (lit "#b") (lit " c")
           "a"%char 12);
    [reflexivity | reflexivity | discriminate | discriminate | reflexivity
    | reflexivity | cbn; lia].
Defined.

(** ** [join] *)

(** X8. [join] puts the separator between each two strings and not behind
    the last one; no string is dropped, an empty one neither, and the empty
    list gives the empty string. *)
Theorem join_intercalate (strings : list cstring) (separator : cstring) :
  size (List.concat (map (fun s => s ++ separator) strings)) < npos ->
  join strings separator = Ok (intercalate separator strings) /\
  (forall s rest,
      strings = s :: rest -> rest <> [] ->
      exists tail,
        join rest separator = Ok tail /\
        join strings separator = Ok (s ++ separator ++ tail)).
Proof.
  intros Hs. split; [now apply join_is_intercalate|].
  intros s rest -> Hne.
  exists (intercalate separator rest).
  rewrite !join_is_intercalate; try assumption.
  - split; [reflexivity|]. cbn [intercalate].
    destruct rest; [congruence | reflexivity].
  - cbn [map List.concat] in Hs. rewrite size_app in Hs.
    pose proof (size_nonneg (s ++ separator)). lia.
Qed.

Lemma join_intercalate_witness :
  join [lit "a"; lit ""; lit "bc"] (lit ", ") = Ok (lit "a, , bc") /\
  (forall s rest,
      [lit "a"; lit ""; lit "bc"] = s :: rest -> rest <> [] ->
      exists tail,
        join rest (lit ", ") = Ok tail /\
        join [lit "a"; lit ""; lit "bc"] (lit ", ") =
        Ok (s ++ lit ", " ++ tail)).
Proof.
  apply (join_intercalate [lit "a"; lit ""; lit "bc"] (lit ", ")).
  reflexivity.
Defined.

(** X9. [tokenize] undoes [join]: tokens that are not empty and hold no
    delimiter, joined with a separator that is not empty and holds
    delimiters only, are tokenized into themselves. *)
Theorem tokenize_join_round_trip
  (d separator : cstring) (toks : list cstring) (fuel : nat) :
  Forall (fun t => t <> [] /\ forallb (not_delim d) t = true) toks ->
  separator <> [] ->
  forallb (is_delim d) separator = true ->
  size (List.concat (map (fun s => s ++ separator) toks)) < npos ->
  (List.length (List.concat (map (fun s => s ++ separator) toks)) < fuel)%nat ->
  exists line,
    join toks separator = Ok line /\ tokenize fuel line d = Ok toks.
Proof.
  intros Htoks Hne Hsep Hs Hf.
  exists (intercalate separator toks). split; [now apply join_is_intercalate|].
  assert (Hle : (List.length (intercalate separator toks) <=
                 List.length (List.concat (map (fun s => s ++ separator) toks)))%nat).
  { destruct toks as [|t toks]; [cbn; lia|].
    rewrite concat_map_intercalate by discriminate. rewrite length_app. lia. }
  destruct (tokenize_splits d fuel (intercalate separator toks))
    as (words & Hrun & Hsp); [unfold size in *; lia | lia |].
  rewrite Hrun. f_equal.
  apply (splits_functional d (intercalate separator toks)); [exact Hsp|].
  now apply splits_intercalate.
Qed.

Lemma tokenize_join_round_trip_witness :
  exists line,
    join [lit "a"; lit "bc"; lit "d"] (lit ", ") = Ok line /\
    tokenize 12 line (lit " ,") = Ok [lit "a"; lit "bc"; lit "d"].
Proof.
  apply (tokenize_join_round_trip (lit " ,") (lit ", ")
           [lit "a"; lit "bc"; lit "d"] 12).
  - repeat constructor; discriminate.
  - discriminate.
  - reflexivity.
  - reflexivity.
  - cbn; lia.
Defined.

Lemma intercalate_nil (toks : list cstring) :
  intercalate [] toks = List.concat toks.
Proof.
  induction toks as [|t toks IH]; [reflexivity|].
  cbn [intercalate List.concat]. destruct toks as [|t' toks].
  - cbn. now rewrite app_nil_r.
  - now rewrite IH.
Qed.

Lemma map_app_nil (toks : list cstring) :
  map (fun s => s ++ []) toks = toks.
Proof.
  induction toks as [|t toks IH]; cbn; [reflexivity|].
  now rewrite app_nil_r, IH.
Qed.

(** X10. [join] with the empty separator undoes [tokenize_spaced]: it gives
    the line back. *)
Theorem join_tokenize_spaced (d s : cstring) (fuel : nat) :
  size s < npos ->
  (List.length s < fuel)%nat ->
  exists toks,
    tokenize_spaced fuel s d = Ok toks /\ join toks [] = Ok s.
Proof.
  intros Hs Hf.
  destruct (tokenize_spaced_concat d fuel s Hs Hf) as (toks & Hrun & Hc).
  exists toks. split; [exact Hrun|].
  rewrite join_is_intercalate.
  - now rewrite intercalate_nil, Hc.
  - now rewrite map_app_nil, Hc.
Qed.

Lemma join_tokenize_spaced_witness :
  exists toks,
    tokenize_spaced 8 (lit " a  b ") (lit " ") = Ok toks /\
    join toks [] = Ok (lit " a  b ").
Proof.
  apply (join_tokenize_spaced (lit " ") (lit " a  b ") 8);
    [reflexivity | cbn; lia].
Defined.

(** ** [partition_indexes] *)

(** X11. For [parts] of at least 1, [partition_indexes] returns [parts]
    pairs, whatever [start] and [end] are. *)
Theorem partition_indexes_count (start end_ parts : Z) (fuel : nat) :
  1 <= parts < uint_max ->
  (Z.to_nat parts <= fuel)%nat ->
  exists l,
    partition_indexes fuel start end_ parts = Ok l /\
    Z.of_nat (List.length l) = parts.
Proof.
  intros Hp Hf. rewrite partition_indexes_chunks by assumption.
  eexists. split; [reflexivity|].
  rewrite length_app, chunks_length. cbn. lia.
Qed.

Lemma partition_indexes_count_witness :
  exists l,
    partition_indexes 4 10 3 4 = Ok l /\ Z.of_nat (List.length l) = 4.
Proof.
  apply (partition_indexes_count 10 3 4 4); [unfold uint_max; lia | cbn; lia].
Defined.

(** X12. Where there are at least as many indexes as parts, the pairs tile
    the range from [start] to [end]: each is an interval that is not empty,
    each starts one behind the end of the one before, the first starts at
    [start] and the last ends at [end]. All but the last hold
    [count / parts] indexes, and the last holds the remainder as well. *)
Theorem partition_indexes_tiles (start end_ parts : Z) (fuel : nat) :
  0 <= start ->
  start <= end_ ->
  end_ - start + 1 < uint_max ->
  end_ < uint_max ->
  1 <= parts <= end_ - start + 1 ->
  (Z.to_nat parts <= fuel)%nat ->
  exists front a,
    partition_indexes fuel start end_ parts = Ok (front ++ [(a, end_)]) /\
    tiles start end_ (front ++ [(a, end_)]) /\
    Z.of_nat (List.length front) = parts - 1 /\
    Forall (fun p => snd p - fst p + 1 = (end_ - start + 1) / parts) front /\
    end_ - a + 1 =
    (end_ - start + 1) / parts + (end_ - start + 1) mod parts.
Proof.
  intros H0 Hle Hcount Hend Hp Hf.
  rewrite partition_indexes_chunks by (assumption || lia).
  assert (Ec : uint_add (uint_sub end_ start) 1 = end_ - start + 1).
  { unfold uint_add, uint_sub. rewrite (Z.mod_small (end_ - start)) by lia.
    apply Z.mod_small. lia. }
  rewrite Ec.
  set (count := end_ - start + 1) in *.
  set (q := count / parts) in *.
  assert (Hq : 1 <= q).
  { unfold q. apply Z.div_le_lower_bound; lia. }
  assert (Hdm : count = parts * q + count mod parts)
    by (unfold q; apply Z.div_mod; lia).
  assert (Hmod : 0 <= count mod parts < parts) by (apply Z.mod_pos_bound; lia).
  assert (Hcdef : count = end_ - start + 1) by reflexivity.
  set (r := count mod parts) in *.
  assert (Hmul : (parts - 1) * q = parts * q - q) by ring.
  assert (Hroom : start + Z.of_nat (Z.to_nat (parts - 1)) * q <= end_).
  { rewrite Z2Nat.id by lia. lia. }
  destruct (chunks_tiles (Z.to_nat (parts - 1)) q start end_ H0 Hq Hroom Hend)
    as (He & Ht & Hsz).
  rewrite He.
  exists (chunks (Z.to_nat (parts - 1)) q start),
    (start + Z.of_nat (Z.to_nat (parts - 1)) * q).
  repeat split; try assumption.
  - rewrite chunks_length. lia.
  - rewrite Z2Nat.id by lia. lia.
Qed.

Lemma partition_indexes_tiles_witness :
  exists front a,
    partition_indexes 3 0 10 3 = Ok (front ++ [(a, 10)]) /\
    tiles 0 10 (front ++ [(a, 10)]) /\
    Z.of_nat (List.length front) = 3 - 1 /\
    Forall (fun p => snd p - fst p + 1 = (10 - 0 + 1) / 3) front /\
    10 - a + 1 = (10 - 0 + 1) / 3 + (10 - 0 + 1) mod 3.
Proof.
  apply (partition_indexes_tiles 0 10 3 3);
    try (unfold uint_max; lia); cbn; lia.
Defined.

(** X13. Where there are more parts than indexes, every pair but the last
    is the pair of [start] and of [start - 1] in [unsigned int] arithmetic
    (an interval that ends in front of its start, and for [start = 0] the
    pair of 0 and the largest [unsigned int]); the last pair is the whole
    range. *)
Theorem partition_indexes_more_parts_than_indexes
  (start end_ parts : Z) (fuel : nat) :
  0 <= start ->
  start <= end_ ->
  end_ < uint_max ->
  end_ - start + 1 < parts ->
  parts < uint_max ->
  (Z.to_nat parts <= fuel)%nat ->
  partition_indexes fuel start end_ parts =
  Ok (repeat (start, (start - 1) mod uint_max) (Z.to_nat (parts - 1))
      ++ [(start, end_)]).
Proof.
  intros H0 Hle Hend Hcount Hp Hf.
  rewrite partition_indexes_chunks by (assumption || lia).
  assert (Ec : uint_add (uint_sub end_ start) 1 = end_ - start + 1).
  { unfold uint_add, uint_sub. rewrite (Z.mod_small (end_ - start)) by lia.
    apply Z.mod_small. lia. }
  rewrite Ec. rewrite Z.div_small by lia.
  destruct (chunks_empty (Z.to_nat (parts - 1)) start) as [-> ->]; [lia|].
  reflexivity.
Qed.

Lemma partition_indexes_more_parts_than_indexes_witness :
  partition_indexes 5 0 2 5 =
  Ok [(0, 4294967295); (0, 4294967295); (0, 4294967295); (0, 4294967295);
      (0, 2)].
Proof.
  apply (partition_indexes_more_parts_than_indexes 0 2 5 5);
    try (unfold uint_max; lia); cbn; lia.
Defined.

(** ** [clean_nonprintable_characters] *)

(** X14. [clean_nonprintable_characters] returns a text of the same length
    in which every character that [iswprint] accepts is kept in its place
    and every other character is U+FFFD. *)
Theorem clean_nonprintable_characters_map
  (iswprint : Z -> bool) (text : wstring) (fuel : nat) :
  wsize text < npos ->
  (List.length text < fuel)%nat ->
  exists out,
    clean_nonprintable_characters fuel iswprint text = Ok out /\
    out = map (clean_character iswprint) text /\
    List.length out = List.length text /\
    Forall (fun c => iswprint c = true \/ c = REPLACEMENT_CHARACTER) out.
Proof.
  intros Hs Hf. exists (map (clean_character iswprint) text).
  split; [|split; [reflexivity | split]].
  - now apply clean_nonprintable_characters_is_map.
  - apply length_map.
  - apply Forall_map, Forall_forall. intros c _. unfold clean_character.
    destruct (iswprint c) eqn:E; [now left | now right].
Qed.

Lemma clean_nonprintable_characters_map_witness :
  exists out,
    clean_nonprintable_characters 5 (fun c => 32 <=? c) [65; 7; 66; 10]
    = Ok out /\
    out = map (clean_character (fun c => 32 <=? c)) [65; 7; 66; 10] /\
    List.length out = List.length [65; 7; 66; 10] /\
    Forall (fun c => (32 <=? c) = true \/ c = REPLACEMENT_CHARACTER) out.
Proof.
  apply (clean_nonprintable_characters_map (fun c => 32 <=? c)
           [65; 7; 66; 10] 5);
    [reflexivity | cbn; lia].
Defined.

(** X15. A text of printable characters is returned as it is; and where
    U+FFFD is printable itself, cleaning a cleaned text changes nothing. *)
Theorem clean_nonprintable_characters_fixed
  (iswprint : Z -> bool) (text : wstring) (fuel : nat) :
  wsize text < npos ->
  (List.length text < fuel)%nat ->
  (forallb iswprint text = true ->
   clean_nonprintable_characters fuel iswprint text = Ok text) /\
  (iswprint REPLACEMENT_CHARACTER = true ->
   exists out,
     clean_nonprintable_characters fuel iswprint text = Ok out /\
     clean_nonprintable_characters fuel iswprint out = Ok out).
Proof.
  intros Hs Hf.
  assert (Hfix : forall t, forallb iswprint t = true ->
                           map (clean_character iswprint) t = t).
  { induction t as [|c t IH]; cbn; [reflexivity|].
    intros H. apply andb_prop in H as [Hc H]. unfold clean_character at 1.
    now rewrite Hc, IH. }
  split.
  - intros Hall. rewrite clean_nonprintable_characters_is_map by assumption.
    now rewrite Hfix.
  - intros Hr. exists (map (clean_character iswprint) text).
    split; [now apply clean_nonprintable_characters_is_map|].
    rewrite clean_nonprintable_characters_is_map.
    + rewrite Hfix; [reflexivity|].
      apply forallb_forall. intros c Hin. apply in_map_iff in Hin.
      destruct Hin as (x & <- & _). unfold clean_character.
      destruct (iswprint x) eqn:E; assumption.
    + unfold wsize in *. now rewrite length_map.
    + now rewrite length_map.
Qed.

Lemma clean_nonprintable_characters_fixed_witness :
  (forallb (fun c => 32 <=? c) [65; 7; 66] = true ->
   clean_nonprintable_characters 4 (fun c => 32 <=? c) [65; 7; 66]
   = Ok [65; 7; 66]) /\
  ((32 <=? REPLACEMENT_CHARACTER) = true ->
   exists out,
     clean_nonprintable_characters 4 (fun c => 32 <=? c) [65; 7; 66] = Ok out /\
     clean_nonprintable_characters 4 (fun c => 32 <=? c) out = Ok out).
Proof.
  apply (clean_nonprintable_characters_fixed (fun c => 32 <=? c) [65; 7; 66] 4);
    [reflexivity | cbn; lia].
Defined.

(** ** [replace_all] with a list of pairs *)

(** X16. Where no pattern is empty, [replace_all] returns, and its result is
    the text rewritten from left to right: at each place where a pattern
    starts, the first such pair of the list is applied and reading goes on
    behind the pattern; other characters are copied; what was put in is
    not read again. *)
Theorem replace_all_left_to_right
  (pairs : list (cstring * cstring)) (str : cstring) (fuel : nat) :
  (forall p, In p pairs -> fst p <> []) ->
  size str < npos ->
  (List.length str < fuel)%nat ->
  replace_all fuel str pairs = Ok (rewrite_from pairs O str).
Proof.
  intros Hne Hs Hf. now apply replace_all_rewrite.
Qed.

Lemma replace_all_left_to_right_witness :
  replace_all 7 (lit "aXbXXc") [(lit "X", lit "XX"); (lit "XX", lit "z")] =
  Ok (lit "aXXbXXXXc").
Proof.
  apply (replace_all_left_to_right
           [(lit "X", lit "XX"); (lit "XX", lit "z")] (lit "aXbXXc") 7).
  - intros p [<- | [<- | []]]; discriminate.
  - reflexivity.
  - cbn; lia.
Defined.

(** X17. Where [find] sees none of the patterns in the text, [replace_all]
    returns the text as it is; so it does for the empty list of pairs. *)
Theorem replace_all_no_match
  (pairs : list (cstring * cstring)) (str : cstring) (fuel : nat) :
  (forall p, In p pairs -> find str (fst p) 0 = npos) ->
  size str < npos ->
  (List.length str < fuel)%nat ->
  replace_all fuel str pairs = Ok str.
Proof.
  intros Hnone Hs Hf.
  assert (Hne : forall p, In p pairs -> fst p <> []).
  { intros p Hp Hnil. specialize (Hnone p Hp). rewrite Hnil in Hnone.
    unfold find in Hnone. pose proof (size_nonneg str).
    destruct (size str <? 0) eqn:E; [apply Z.ltb_lt in E; lia|].
    cbn [Z.to_nat skipn] in Hnone.
    destruct str; cbn in Hnone; discriminate. }
  rewrite replace_all_rewrite by assumption.
  f_equal. apply rewrite_from_no_match.
  rewrite <- best_next_match. apply best_none.
  intros p Hp. apply find_npos_offset; [exact Hs | now apply Hnone].
Qed.

Lemma replace_all_no_match_witness :
  replace_all 4 (lit "abc") [(lit "ca", lit "x"); (lit "d", lit "y")] =
  Ok (lit "abc").
Proof.
  apply (replace_all_no_match [(lit "ca", lit "x"); (lit "d", lit "y")]
           (lit "abc") 4).
  - intros p [<- | [<- | []]]; reflexivity.
  - reflexivity.
  - cbn; lia.
Defined.

(** X18. Where every pattern is one character long, [replace_all] replaces
    each character on its own: by the replacement of the first pair of the
    list whose pattern is that character, or by itself. *)
Theorem replace_all_single_characters
  (pairs : list (cstring * cstring)) (str : cstring) (fuel : nat) :
  (forall p, In p pairs -> List.length (fst p) = 1%nat) ->
  size str < npos ->
  (List.length str < fuel)%nat ->
  replace_all fuel str pairs = Ok (flat_map (replace_character pairs) str).
Proof.
  intros H1 Hs Hf.
  assert (Hne : forall p, In p pairs -> fst p <> []).
  { intros p Hp Hnil. specialize (H1 p Hp). rewrite Hnil in H1. discriminate. }
  rewrite replace_all_rewrite by assumption.
  f_equal. now apply rewrite_from_single.
Qed.

Lemma replace_all_single_characters_witness :
  replace_all 6 (lit "a<b>c")
    [(lit "<", lit "&lt;"); (lit ">", lit "&gt;"); (lit "<", lit "?")] =
  Ok (lit "a&lt;b&gt;c").
Proof.
  apply (replace_all_single_characters
           [(lit "<", lit "&lt;"); (lit ">", lit "&gt;"); (lit "<", lit "?")]
           (lit "a<b>c") 6).
  - intros p [<- | [<- | [<- | []]]]; reflexivity.
  - reflexivity.
  - cbn; lia.
Defined.

(** X19. With an empty pattern in the first pair and a text that is not
    empty, the loop of [replace_all] never ends: the empty pattern is found
    at [cur_index], no later pair is found in front of it, and [cur_index]
    stays where it is. *)
Theorem replace_all_empty_pattern_never_returns
  (to_ str : cstring) (pairs : list (cstring * cstring)) (fuel : nat) :
  str <> [] ->
  replace_all fuel str (([], to_) :: pairs) = OutOfFuel.
Proof.
  intros Hne. unfold replace_all.
  enough (Hloop : forall output,
             replace_all_loop fuel str (([], to_) :: pairs) 0 output
             = OutOfFuel) by apply Hloop.
  induction fuel as [|fuel IH]; intros output; [reflexivity|].
  cbn [replace_all_loop].
  assert (Hsz : (0 =? size str) = false).
  { apply Z.eqb_neq. destruct str; [congruence|]. rewrite size_cons.
    pose proof (size_nonneg str). lia. }
  rewrite Hsz. cbn [negb fold_left].
  assert (Hstep : first_match_step str 0 (npos, ([], [])) ([], to_)
                  = (0, ([], to_))).
  { unfold first_match_step, find. cbn [fst].
    pose proof (size_nonneg str).
    destruct (size str <? 0) eqn:E; [apply Z.ltb_lt in E; lia|].
    cbn [Z.to_nat skipn]. destruct str; reflexivity. }
  rewrite Hstep, fold_first_match_zero. cbn [fst snd].
  change (0 =? npos) with false. cbv iota.
  unfold substr. pose proof (size_nonneg str).
  destruct (size str <? 0) eqn:E; [apply Z.ltb_lt in E; lia|].
  cbn [bind]. apply IH.
Qed.

Lemma replace_all_empty_pattern_never_returns_witness :
  replace_all 1000 (lit "ab") [([], lit "x"); (lit "a", lit "y")] = OutOfFuel.
Proof.
  apply (replace_all_empty_pattern_never_returns (lit "x") (lit "ab")
           [(lit "a", lit "y")] 1000).
  discriminate.
Defined.
